(** * Speaker-diarization post-processing utilities (speaker_utils.py)

    A shallow embedding of the interval algebra, the segment layout, the
    MSDD post-processor, the clustering driver loop and the online segmentor
    of [nemo/collections/asr/parts/utils/speaker_utils.py], with the
    properties of these functions that the specification states.

    Conventions of the embedding.
    - Python exceptions are values of [exception]; a function that may raise
      returns a [result].
    - Floating-point numbers are rationals ([Q]); tensor entries that may
      be NaN or infinite are modelled by [fval].  The conversions [fl2int]
      and [int2fl] of the interval merge round as the code does: Python
      floats are IEEE 754 binary64 numbers, the tensors built from them are
      binary32 numbers, and [.int()] is a conversion to int32 ([round_to],
      [f64], [f32], [to_int32]).  In the other functions arithmetic is
      exact, and the properties stated of them are about counts, orders and
      exceptions.  Numbers handed back to Python ([.item()], [float(..)])
      are normalised with [Qred], which does not change their value.
    - Keyword dictionaries ([**params]) are records with one field per key
      the code reads. *)

From Stdlib Require Import String.
From Stdlib Require Import ZArith QArith Qround Qabs Qpower List Bool Lia Lqa.
From Stdlib Require Import Permutation Sorted.
Import ListNotations.

Open Scope Z_scope.

(** ** Exceptions and results *)

Inductive exception : Type :=
| ValueError
| NameError            (* includes UnboundLocalError, its subclass *)
| IndexError
| RuntimeError
| AttributeError
| ZeroDivisionError
| NotImplementedError
| AssertionError
| KeyError.

Inductive result (A : Type) : Type :=
| Ok (a : A)
| Raise (e : exception).

Arguments Ok {A} a.
Arguments Raise {A} e.

Definition bind {A B : Type} (r : result A) (k : A -> result B) : result B :=
  match r with
  | Ok a => k a
  | Raise e => Raise e
  end.

Notation "x <- r ;; k" := (bind r (fun x => k))
  (at level 61, r at next level, right associativity).

Definition returns {A : Type} (r : result A) : Prop := exists a, r = Ok a.
Definition raises {A : Type} (r : result A) : Prop := exists e, r = Raise e.

(** ** Rational helpers *)

Definition Qleb (a b : Q) : bool := Qle_bool a b.
Definition Qltb (a b : Q) : bool := negb (Qle_bool b a).
Definition Qeqb (a b : Q) : bool := Qeq_bool a b.

Definition Qmin' (a b : Q) : Q := if Qleb a b then a else b.

Fixpoint pow10 (d : nat) : positive :=
  match d with
  | O => 1%positive
  | S d' => (10 * pow10 d')%positive
  end.

(** [torch.round]: round half to even. *)
Definition round_half_even (q : Q) : Z :=
  let f := Qfloor q in
  match Qcompare (q - inject_Z f) (1 # 2) with
  | Lt => f
  | Gt => f + 1
  | Eq => if Z.even f then f else f + 1
  end.

(** *** Binary floating-point numbers

    A format is given by its precision (the number of bits of the
    significand) and by the exponent of its smallest positive number. *)
Record binary_format : Type := mkFormat { prec : Z; emin : Z }.

Definition binary32 : binary_format := mkFormat 24 (-149).
Definition binary64 : binary_format := mkFormat 53 (-1074).

(** The binade of a non-zero [x]: the [e] with [2^e <= |x| < 2^(e+1)]. *)
Definition binade (x : Q) : Z :=
  let e := Z.log2 (Z.abs (Qnum x)) - Z.log2 (Zpos (Qden x)) in
  if Qle_bool (2 ^ e) (Qabs x) then e else e - 1.

(** Rounding to the nearest number of the format, ties to the even
    significand.  Overflow to infinity is not represented: the only values
    rounded here that can be that large are those of [fl2int], which
    [to_int32] maps to the same integer as an infinity. *)
Definition round_to (f : binary_format) (x : Q) : Q :=
  if Qeq_bool x 0 then 0%Q
  else
    let u := (2 ^ Z.max (binade x - prec f + 1) (emin f))%Q in
    Qred (inject_Z (round_half_even (x / u)) * u).

(** A Python float; a float32 tensor entry. *)
Definition f64 : Q -> Q := round_to binary64.
Definition f32 : Q -> Q := round_to binary32.

(** The Python float that a decimal literal denotes. *)
Definition py_float (q : Q) : Q := f64 q.

(** [.int()] on an integral float32 value: the value when it fits int32,
    and the integer indefinite value [-2^31] of the x86-64 conversion
    otherwise (also for an infinity). *)
Definition to_int32 (r : Z) : Z :=
  if (- 2 ^ 31 <=? r) && (r <? 2 ^ 31) then r else - 2 ^ 31.

(** [torch.round(t, decimals=d)] on a float32 entry, for [d > 0] as the
    CPU kernel computes it: [nearbyint(a * 10^d) / 10^d] in float32. *)
Definition torch_round_decimals (d : nat) (a : Q) : Q :=
  let ten_pow_decimals := f32 (inject_Z (Zpos (pow10 d))) in
  f32 (inject_Z (round_half_even (f32 (a * ten_pow_decimals)))
       / ten_pow_decimals).

(** [torch.round(x, decimals=d)] on exact values. *)
Definition round_decimals (d : nat) (q : Q) : Q :=
  Qred (round_half_even (q * inject_Z (Zpos (pow10 d))) # pow10 d).

(** Python slice [l[:n]] for a possibly negative [n]. *)
Definition slice_upto {A : Type} (n : Z) (l : list A) : list A :=
  if 0 <=? n then firstn (Z.to_nat n) l
  else firstn (length l - Z.to_nat (- n)) l.

(** ** Segment layout: [get_subsegments]

    Arithmetic is exact in this module: the float32 rounding of the
    tensors and the rounding of the Python sums and differences are not
    represented.  The values computed agree with the code's wherever these
    are exact in float32. *)

Module Subsegments.

(** [torch.arange(start, stop, step)]. *)
Definition arange (start stop step : Q) : result (list Q) :=
  if Qeqb step 0 then Raise RuntimeError
  else if (Qltb 0 step && Qltb stop start) || (Qltb step 0 && Qltb start stop)
  then Raise RuntimeError
  else
    let n := Qceiling ((stop - start) / step) in
    Ok (map (fun k => (start + inject_Z (Z.of_nat k) * step)%Q)
            (seq 0 (Z.to_nat n))).

(** [torch.ones(n)]. *)
Definition ones (n : Z) : result (list Q) :=
  if n <? 0 then Raise RuntimeError else Ok (repeat 1%Q (Z.to_nat n)).

(** [t[-1]]. *)
Definition last_item (l : list Q) : result Q :=
  match rev l with
  | [] => Raise IndexError
  | x :: _ => Ok x
  end.

(** [t[-1] = v]. *)
Definition set_last (l : list Q) (v : Q) : result (list Q) :=
  match rev l with
  | [] => Raise IndexError
  | _ :: r => Ok (rev r ++ [v])
  end.

(** [torch.stack([a, b], dim=1)]. *)
Definition stack2 (a b : list Q) : result (list (Q * Q)) :=
  if Nat.eqb (length a) (length b) then Ok (combine a b) else Raise RuntimeError.

(** The number of slices, lines 1480-1483. *)
Definition num_slices (window shift duration min_subsegment_duration : Q)
  : result Z :=
  if Qleb min_subsegment_duration duration && Qltb duration shift then Ok 1
  else if Qeqb shift 0 then Raise ZeroDivisionError
  else Ok (Qceiling ((duration - window) / shift) + 1).

Definition get_subsegments
  (offset window shift duration min_subsegment_duration : Q) (decimals : nat)
  : result (list (Q * Q)) :=
  let start := offset in
  let slice_end := (start + duration)%Q in
  slices <- num_slices window shift duration min_subsegment_duration ;;
  if slices =? 1 then
    if Qleb min_subsegment_duration (Qmin' duration window)
    then Ok [(Qred start, Qred (Qmin' duration window))]
    else Ok []
  else
    full <- arange offset slice_end shift ;;
    let start_col := slice_upto slices full in
    dur_col <- ones slices ;;
    let dur_col := map (fun o => (window * o)%Q) dur_col in
    last_start <- last_item start_col ;;
    dur_col <- set_last dur_col (Qmin' (slice_end - last_start) window) ;;
    let dur_col := map (round_decimals decimals) dur_col in
    ss_tensor <- stack2 start_col dur_col ;;
    Ok (map (fun p => (Qred (fst p), Qred (snd p)))
            (filter (fun p => Qleb min_subsegment_duration (snd p)) ss_tensor)).

(** The older variant [get_subsegments_], lines 1498-1520. *)
Definition get_subsegments_ (offset window shift duration : Q)
  : result (list (Q * Q)) :=
  if Qeqb shift 0 then Raise ZeroDivisionError
  else
    let slice_end := (offset + duration)%Q in
    let base := Qceiling ((duration - window) / shift) in
    let slices := if base <? 0 then 1 else base + 1 in
    Ok (map (fun k =>
               let start := if Nat.eqb k 0 then offset
                            else (offset + inject_Z (Z.of_nat k) * shift)%Q in
               let e := (start + window)%Q in
               let e := if Qltb slice_end e then slice_end else e in
               (Qred start, Qred (e - start)))
            (seq 0 (Z.to_nat slices))).

(** Default arguments of [get_subsegments]. *)
Definition default_min_subsegment_duration : Q := 3 # 100.
Definition default_decimals : nat := 2.

End Subsegments.

(** ** Interval algebra *)

Module Intervals.

Definition interval : Type := (Q * Q)%type.

Definition Qmax' (a b : Q) : Q := if Qltb a b then b else a.

Definition is_overlap (rangeA rangeB : interval) : bool :=
  let '(start1, end1) := rangeA in
  let '(start2, end2) := rangeB in
  Qltb start2 end1 && Qltb start1 end2.

Definition get_overlap_range (rangeA rangeB : interval) : result interval :=
  if is_overlap rangeA rangeB
  then Ok (Qmax' (fst rangeA) (fst rangeB), Qmin' (snd rangeA) (snd rangeB))
  else Raise AssertionError.

(** [target_range] is a Python list that is either empty or a pair. *)
Fixpoint get_sub_range_list (target_range : option interval)
  (source_range_list : list interval) : result (list interval) :=
  match target_range with
  | None => Ok []
  | Some t =>
      match source_range_list with
      | [] => Ok []
      | s_range :: rest =>
          if is_overlap s_range t then
            ovl_range <- get_overlap_range s_range t ;;
            out <- get_sub_range_list target_range rest ;;
            Ok (ovl_range :: out)
          else get_sub_range_list target_range rest
      end
  end.

(** One column of [torch.sort(interval_tensor, dim=0)]: the values in
    ascending order. *)
Fixpoint insert_sorted (x : Z) (l : list Z) : list Z :=
  match l with
  | [] => [x]
  | y :: tl => if x <=? y then x :: l else y :: insert_sorted x tl
  end.

Fixpoint sort_col (l : list Z) : list Z :=
  match l with
  | [] => []
  | x :: tl => insert_sorted x (sort_col tl)
  end.

(** [torch.sort(.., dim=0)] on an [N x 2] tensor sorts the two columns
    independently of each other. *)
Definition sort_dim0 (l : list (Z * Z)) : list (Z * Z) :=
  combine (sort_col (map fst l)) (sort_col (map snd l)).

(** The sweep of lines 1249-1261, [start]/[end] being the open range. *)
Fixpoint sweep (start end_ : Z) (rest : list (Z * Z)) : list (Z * Z) :=
  match rest with
  | [] => [(start, end_)]
  | (stt2, end2) :: tl =>
      if stt2 <=? end_ then sweep start (Z.max end2 end_) tl
      else (start, end_) :: sweep stt2 (Z.max end2 end_) tl
  end.

Definition merge_int_intervals (intervals_in : list (Z * Z)) : list (Z * Z) :=
  match intervals_in with
  | [] => []
  | [x] => [x]
  | _ =>
      match sort_dim0 intervals_in with
      | [] => []
      | (start, end_) :: rest => sweep start end_ rest
      end
  end.

(** [torch.round(torch.tensor([x * (10 ** decimals)]), decimals=0).int().item()]:
    the product is a Python float, the tensor entry its float32 rounding,
    [torch.round] with [decimals=0] rounds half to even.  Stated for
    [decimals <= 308] (beyond, Python raises OverflowError on the product);
    every caller in the file uses 5. *)
Definition fl2int (x : Q) (decimals : nat) : Z :=
  let scaled := f64 (x * f64 (inject_Z (Zpos (pow10 decimals)))) in
  to_int32 (round_half_even (f32 scaled)).

(** [torch.round(torch.tensor([x / (10 ** decimals)]), decimals=decimals).item()]:
    the quotient of two Python ints is the correctly rounded float, the
    tensor entry its float32 rounding.  Faithful for [decimals <= 10], where
    [10 ** decimals] is exact in float32, and for [x] in the int64 range. *)
Definition int2fl (x : Z) (decimals : nat) : Q :=
  torch_round_decimals decimals
    (f32 (f64 (inject_Z x / inject_Z (Zpos (pow10 decimals))))).

Definition ranges_to_int (ranges : list interval) (decimals : nat) (margin : Z)
  : list (Z * Z) :=
  filter (fun p => fst p <? snd p)
         (map (fun x => (fl2int (fst x) decimals + margin, fl2int (snd x) decimals))
              ranges).

Definition merge_float_intervals (ranges : list interval) (decimals : nat)
  (margin : Z) : list interval :=
  let ranges_int := ranges_to_int ranges decimals margin in
  let merged_ranges_int := merge_int_intervals ranges_int in
  map (fun x => (int2fl (fst x - margin) decimals, int2fl (snd x) decimals))
      merged_ranges_int.

(** Default arguments of [merge_float_intervals]. *)
Definition default_decimals : nat := 5.
Definition default_margin : Z := 2.

(** A point is covered by an interval, bounds included. *)
Definition covers (o : interval) (x : Q) : Prop := (fst o <= x /\ x <= snd o)%Q.

(** Integer ranges in ascending order, each ending strictly before the
    next one starts, and none empty: the shape of the output of the sweep. *)
Definition separated (l : list (Z * Z)) : Prop :=
  StronglySorted (fun p q => snd p < fst q) l
  /\ Forall (fun p => fst p < snd p) l.

(** The sweep, run from an open range ending at [end_], never closes a range
    inside [s, e]: wherever it cuts, [s, e] lies on one side of the cut. *)
Fixpoint nocut (s e end_ : Z) (rest : list (Z * Z)) : Prop :=
  match rest with
  | [] => e <= end_
  | (stt2, end2) :: tl =>
      (end_ < stt2 -> e <= end_ \/ stt2 <= s) /\ nocut s e (Z.max end2 end_) tl
  end.


End Intervals.

(** ** MSDD post-processor *)

Module Msdd.

(** Entries of a float tensor. *)
Inductive fval : Type :=
| Fin (q : Q)
| PInf
| NInf
| NaN.

Definition fzero : fval := Fin 0.

Definition fadd (a b : fval) : fval :=
  match a, b with
  | NaN, _ | _, NaN => NaN
  | PInf, NInf | NInf, PInf => NaN
  | PInf, _ | _, PInf => PInf
  | NInf, _ | _, NInf => NInf
  | Fin x, Fin y => Fin (x + y)
  end.

Definition fsum (l : list fval) : fval := fold_left fadd l fzero.

Definition fdiv (a b : fval) : fval :=
  match a, b with
  | NaN, _ | _, NaN => NaN
  | Fin x, Fin y =>
      if Qeqb y 0 then
        if Qeqb x 0 then NaN else if Qltb 0 x then PInf else NInf
      else Fin (x / y)
  | Fin _, _ => Fin 0
  | PInf, Fin y => if Qltb y 0 then NInf else PInf
  | NInf, Fin y => if Qltb y 0 then PInf else NInf
  | _, _ => NaN
  end.

(** IEEE comparison [a < b]: false as soon as one side is NaN. *)
Definition flt (a b : fval) : bool :=
  match a, b with
  | NaN, _ | _, NaN => false
  | Fin x, Fin y => Qltb x y
  | NInf, NInf => false
  | NInf, _ => true
  | _, NInf => false
  | PInf, _ => false
  | Fin _, PInf => true
  end.

Definition fle (a b : fval) : bool :=
  match a, b with
  | NaN, _ | _, NaN => false
  | Fin x, Fin y => Qleb x y
  | NInf, _ => true
  | _, PInf => true
  | _, _ => false
  end.

Definition fgt (a b : fval) : bool := flt b a.
Definition fge (a b : fval) : bool := fle b a.

(** Truth value of a float in [np.logical_or]: anything but zero. *)
Definition ftruthy (a : fval) : bool :=
  match a with
  | Fin x => negb (Qeqb x 0)
  | _ => true
  end.

(** Product of a 0/1 mask entry with a float ([0 * nan] and [0 * inf] are
    NaN). *)
Definition fmask (keep : bool) (a : fval) : fval :=
  if keep then a
  else match a with
       | Fin _ => Fin 0
       | _ => NaN
       end.

(** The order in which [torch.topk] and [torch.max] rank entries: NaN is
    the largest value. *)
Definition rank_lt (a b : fval) : bool :=
  match a, b with
  | NaN, _ => false
  | _, NaN => true
  | _, _ => flt a b
  end.

(** [torch.max] along a row (NaN propagates). *)
Definition fmax_list (l : list fval) : fval :=
  fold_left (fun acc x => if rank_lt acc x then x else acc) l NInf.

Definition matrix : Type := list (list fval).

(** Dynamically typed value bound to the parameter [msdd_preds]. *)
Inductive pyval : Type :=
| PyFloat (x : Q)
| Tensor1 (data : list fval)
| Tensor2 (ncols : nat) (rows : matrix)
    (* shape [T, ncols]: [rows] has T entries of [ncols] values each *)
| Tensor3 (ncols nch : nat) (data : list (list (list fval))).
    (* shape [T, ncols, nch], [data t m c] *)

(** The keys of [params] read by the post-processor. *)
Record params : Type := mkParams {
  infer_overlap : bool;
  mask_spks_with_clus : bool;
  overlap_infer_spk_limit : Q;
  ts_vad_threshold : Q;
  mc_late_fusion_mode : string;
  use_ts_vad : bool;
  hop_len_in_cs : Z
}.

(** *** [get_top_k_for_each_row] *)

Fixpoint argmax (best : nat * fval) (l : list (nat * fval)) : nat * fval :=
  match l with
  | [] => best
  | x :: tl => argmax (if rank_lt (snd best) (snd x) then x else best) tl
  end.

(** The [k] largest entries of a row with their column, largest first;
    among equal entries the lowest column is taken first. *)
Fixpoint topk_of (k : nat) (l : list (nat * fval)) : list (nat * fval) :=
  match k, l with
  | S k', x :: tl =>
      let b := argmax x tl in
      b :: topk_of k' (filter (fun p => negb (Nat.eqb (fst p) (fst b))) l)
  | _, _ => []
  end.

Definition topk_row (k : nat) (row : list fval) : list (nat * fval) :=
  topk_of k (combine (seq 0 (length row)) row).

(** Row of [top_k_mask * logit_mat]. *)
Definition mask_row (picked : list nat) (row : list fval) : list fval :=
  map (fun p => fmask (existsb (Nat.eqb (fst p)) picked) (snd p))
      (combine (seq 0 (length row)) row).

Definition get_top_k_for_each_row (ncols : nat) (logit_mat : matrix)
  (k_count : Z) (orig_dim : nat) : result (matrix * list fval) :=
  if (k_count <? 0) || (Z.of_nat ncols <? k_count) then Raise RuntimeError
  else
    let k := Z.to_nat k_count in
    let top := map (topk_row k) logit_mat in
    if 1 <? k_count then
      match logit_mat with
      | [] => Raise RuntimeError          (* reshape(-1, 0, orig_dim) *)
      | _ =>
          let logit_gap :=
            map (fun t => fdiv (snd (nth 1 t (O, NaN))) (snd (nth 0 t (O, NaN))))
                top in
          Ok (map (fun tr => mask_row (map fst (fst tr)) (snd tr))
                  (combine top logit_mat),
              logit_gap)
      end
    else if k_count =? 0 then
      (* one_hot of an empty index tensor, then topk_vals[:, 0] *)
      if Nat.eqb orig_dim 0 then Raise RuntimeError else Raise IndexError
    else
      Ok (map (fun tr => mask_row (map fst (fst tr)) (snd tr))
              (combine top logit_mat),
          map (fun _ => fzero) logit_mat).

(** *** [generate_speaker_timestamps] *)

Definition col (m : nat) (rows : matrix) : list fval :=
  map (fun r => nth m r fzero) rows.

(** [msdd_preds.sum(dim=0) / msdd_preds.sum()]. *)
Definition spk_time_each_of (ncols : nat) (rows : matrix) : list fval :=
  let total := fsum (concat rows) in
  map (fun m => fdiv (fsum (col m rows)) total) (seq 0 ncols).

(** [np.unique(clus_labels[clus_labels >= 0])], as a duplicate-free list. *)
Definition active_spk_inds_of (clus_labels : list Z) : list Z :=
  nodup Z.eq_dec (filter (fun c => 0 <=? c) clus_labels).

Definition vad_mask_of (clus_labels : list Z) : list bool :=
  map (fun c => -1 <? c) clus_labels.

(** [msdd_preds[:, mask_ch_inds] = 0.0]. *)
Definition mask_inactive (active : list Z) (rows : matrix) : matrix :=
  map (fun r =>
         map (fun p => if existsb (Z.eqb (Z.of_nat (fst p))) active
                       then snd p else fzero)
             (combine (seq 0 (length r)) r))
      rows.

(** [mat[:, cols] = 0.0] for the columns flagged in [flags]. *)
Definition zero_cols (flags : list bool) (rows : matrix) : matrix :=
  map (fun r => map (fun p : bool * fval => if fst p then fzero else snd p)
                    (combine flags r)) rows.

(** [mat[rows_flag] = 0.0] for the rows flagged in [flags]. *)
Definition zero_rows {A : Type} (zero : A) (flags : list bool)
  (rows : list (list A)) : list (list A) :=
  map (fun p : bool * list A =>
         if fst p then map (fun _ => zero) (snd p) else snd p)
      (combine flags rows).

Definition count_pos (row : list fval) : Z :=
  Z.of_nat (length (filter (fun x => fgt x fzero) row)).

Definition b2z (b : bool) : Z := if b then 1 else 0.

(** Lines 2021-2059 on a tensor of shape [T, ncols]. *)
Definition generate_speaker_timestamps_2d (clus_labels : list Z)
  (ncols : nat) (msdd_preds : matrix) (threshold : Q)
  (max_overlap_count : Z) (p : params) : result (list (list Z)) :=
  let model_spk_num := ncols in
  let vad_mask := vad_mask_of clus_labels in
  let spk_time_each := spk_time_each_of ncols msdd_preds in
  (* lines 2027-2031: [active_spk_inds] is bound in this branch only *)
  masked <-
    (if mask_spks_with_clus p then
       let active_spk_inds := active_spk_inds_of clus_labels in
       if existsb (fun a => Z.of_nat ncols <=? a) active_spk_inds
       then Raise IndexError
       else Ok (Some active_spk_inds,
                mask_inactive active_spk_inds msdd_preds)
     else Ok (None, msdd_preds)) ;;
  let '(active_spk_inds, msdd_preds) := masked in
  (* line 2033: boolean index of length len(clus_labels) on axis 0, the
     labels of the speech frames as column positions *)
  if negb (Nat.eqb (length clus_labels) (length msdd_preds))
     || existsb (fun a => Z.of_nat ncols <=? a)
                (filter (fun c => -1 <? c) clus_labels)
  then Raise IndexError
  else
  (* lines 2035-2038 *)
  max_overlap_count <-
    (if negb (infer_overlap p) then Ok 1
     else match active_spk_inds with
          | Some inds => Ok (Z.min (Z.of_nat (length inds)) max_overlap_count)
          | None => Raise NameError
          end) ;;
  topk <- get_top_k_for_each_row ncols msdd_preds max_overlap_count model_spk_num ;;
  let '(msdd_preds_topk_per_seg, logit_gap) := topk in
  top1 <- get_top_k_for_each_row ncols msdd_preds 1 model_spk_num ;;
  let msdd_preds_top1_per_seg := fst top1 in
  if negb (forallb (fun r => count_pos r =? max_overlap_count)
                   msdd_preds_topk_per_seg)
  then Raise ValueError
  else
  let msdd_preds_topk_per_seg :=
    zero_cols (map (fun s => flt s (Fin (overlap_infer_spk_limit p)))
                   spk_time_each)
              msdd_preds_topk_per_seg in
  (* lines 2044-2046: [msdd_preds_masked] is computed with the threshold
     and bound to [speaker_assign_mat], which line 2053 rebinds *)
  let msdd_preds_masked :=
    zero_rows 0 (map negb vad_mask)
      (map (map (fun x => b2z (fge x (Fin threshold)))) msdd_preds_topk_per_seg) in
  let msdd_preds_topk_per_seg :=
    zero_rows fzero (map (fun g => flt g (Fin threshold)) logit_gap)
              msdd_preds_topk_per_seg in
  let msdd_preds_masked_ovl := msdd_preds_topk_per_seg in
  let msdd_preds_masked_one :=
    map (map (fun x => b2z (fgt x fzero))) msdd_preds_top1_per_seg in
  if negb (forallb (fun r => fold_left Z.add r 0 =? 1) msdd_preds_masked_one)
  then Raise ValueError
  else
  let speaker_assign_mat :=
    map (fun rr => map (fun e => b2z ((fst e =? 1) || ftruthy (snd e)))
                       (combine (fst rr) (snd rr)))
        (combine msdd_preds_masked_one msdd_preds_masked_ovl) in
  if Qleb (ts_vad_threshold p) 0 then
    Ok (zero_rows 0 (map negb vad_mask) speaker_assign_mat)
  else
    let msdd_step_max := map fmax_list msdd_preds in
    Ok (zero_rows 0 (map (fun x => flt x (Fin (ts_vad_threshold p))) msdd_step_max)
                  speaker_assign_mat).

(** Lines 2013-2059.  On a 3-D tensor the body runs up to the transposition
    [moc_inds.t()] in [get_top_k_for_each_row], which PyTorch refuses for
    more than two dimensions. *)
Definition generate_speaker_timestamps (clus_labels : list Z)
  (msdd_preds : pyval) (threshold : Q) (max_overlap_count : Z) (p : params)
  : result (list (list Z)) :=
  match msdd_preds with
  | PyFloat _ => Raise AttributeError            (* float has no [shape] *)
  | Tensor1 _ => Raise ValueError
  | Tensor2 ncols rows =>
      generate_speaker_timestamps_2d clus_labels ncols rows threshold
        max_overlap_count p
  | Tensor3 ncols nch data =>
      if negb (Nat.eqb (length clus_labels) (length data))
         || existsb (fun a => Z.of_nat ncols <=? a)
                    (filter (fun c => -1 <? c) clus_labels)
      then Raise IndexError
      else if infer_overlap p && negb (mask_spks_with_clus p)
      then Raise NameError
      else Raise RuntimeError
  end.

(** Default of the keyword [max_overlap_count]. *)
Definition default_max_overlap_count : Z := 2.

(** The NaN guard of the older variant [generate_speaker_timestamps_],
    lines 1936-1937. *)
Definition is_nan (a : fval) : bool :=
  match a with
  | NaN => true
  | _ => false
  end.

Definition has_nan (rows : matrix) : bool := existsb (existsb is_nan) rows.

Definition nan_guard (rows : matrix) : result unit :=
  if has_nan rows then Raise ValueError else Ok tt.

(** The activation matrix as the specification states it, for a top-k
    count [k]: [A_top1 \/ A_ovl] with
    [A_ovl = (TopK >= threshold /\ logit_gap >= threshold)] and
    [A_top1 = (Top1 > 0)]. *)
Definition stated_assign_mat (ncols : nat) (msdd_preds : matrix)
  (threshold : Q) (k : Z) : result (list (list Z)) :=
  topk <- get_top_k_for_each_row ncols msdd_preds k ncols ;;
  top1 <- get_top_k_for_each_row ncols msdd_preds 1 ncols ;;
  Ok (map (fun r =>
             let '(top1_row, (topk_row, gap)) := r in
             map (fun e : fval * fval =>
                    b2z (fgt (fst e) fzero
                         || (fge (snd e) (Fin threshold)
                             && fge gap (Fin threshold))))
                 (combine top1_row topk_row))
          (combine (fst top1) (combine (fst topk) (snd topk)))).

(** Inputs on which no indexing of [generate_speaker_timestamps] is out of
    range: a 2-D or 3-D tensor with one row per cluster label and a column
    for every speaker label. *)
Definition well_shaped (clus_labels : list Z) (msdd_preds : pyval) : bool :=
  match msdd_preds with
  | Tensor2 ncols rows =>
      Nat.eqb (length clus_labels) (length rows)
      && forallb (fun c => c <? Z.of_nat ncols) clus_labels
  | Tensor3 ncols _ data =>
      Nat.eqb (length clus_labels) (length data)
      && forallb (fun c => c <? Z.of_nat ncols) clus_labels
  | _ => false
  end.

(** *** [mixdown_msdd_preds] *)

Section Mixdown.

(** [ts_vad_post_processing] of offline_clustering.py is an external
    collaborator: it turns one column of the activation matrix into
    intervals. *)
Variable vad_params_t : Type.
Variable ts_vad_post_processing : list Q -> vad_params_t -> Z -> list (Q * Q).

(** [msdd_preds[:, :, ch_idx]]. *)
Definition channel (ch_idx : nat) (data : list (list (list fval))) : matrix :=
  map (map (fun v => nth ch_idx v fzero)) data.

(** [msdd_preds.mean(dim=2)]. *)
Definition mean_dim2 (nch : nat) (data : list (list (list fval))) : matrix :=
  map (map (fun v => fdiv (fsum v) (Fin (inject_Z (Z.of_nat nch))))) data.

Fixpoint per_channel (clus_labels : list Z) (ncols : nat)
  (data : list (list (list fval))) (threshold : Q) (p : params)
  (chs : list nat) : result (list (list (list Z))) :=
  match chs with
  | [] => Ok []
  | ch_idx :: rest =>
      speaker_assign_mat <-
        generate_speaker_timestamps clus_labels
          (Tensor2 ncols (channel ch_idx data)) threshold
          default_max_overlap_count p ;;
      others <- per_channel clus_labels ncols data threshold p rest ;;
      Ok (speaker_assign_mat :: others)
  end.

(** Entry-wise reduction of the stacked per-channel matrices along the
    channel axis. *)
Definition reduce_channels (f : list Z -> Q) (mats : list (list (list Z)))
  : list (list Q) :=
  match mats with
  | [] => []
  | m0 :: _ =>
      map (fun t =>
             map (fun m => f (map (fun mat => nth m (nth t mat []) 0) mats))
                 (seq 0 (length (nth t m0 []))))
          (seq 0 (length m0))
  end.

Definition max_list (l : list Z) : Q :=
  match l with
  | [] => 0
  | x :: tl => inject_Z (fold_left Z.max tl x)
  end.

Definition mean_list (l : list Z) : Q :=
  inject_Z (fold_left Z.add l 0) / inject_Z (Z.of_nat (length l)).

Definition to_float_mat (m : list (list Z)) : list (list Q) :=
  map (map inject_Z) m.

(** Lines 2281-2300: the activation matrix that the channel dispatch binds
    to [speaker_assign_mat]. *)
Definition mixdown_assign_mat (clus_labels : list Z) (msdd_preds : pyval)
  (offset threshold : Q) (p : params) : result (list (list Q)) :=
  match msdd_preds with
  | PyFloat _ => Raise AttributeError
  | Tensor3 ncols nch data =>
      if prefix "post" (mc_late_fusion_mode p) then
        mc <- per_channel clus_labels ncols data threshold p (seq 0 nch) ;;
        match rev mc with
        | [] => Raise ValueError                 (* np.stack of no array *)
        | last_mat :: _ =>
            if String.eqb (mc_late_fusion_mode p) "post_max"
            then Ok (reduce_channels max_list mc)
            else if String.eqb (mc_late_fusion_mode p) "post_mean"
            then Ok (reduce_channels mean_list mc)
            else Ok (to_float_mat last_mat)
        end
      else if prefix "pre" (mc_late_fusion_mode p) then
        if String.eqb (mc_late_fusion_mode p) "pre_mean" then
          m <- generate_speaker_timestamps clus_labels
                 (Tensor2 ncols (mean_dim2 nch data)) threshold
                 default_max_overlap_count p ;;
          Ok (to_float_mat m)
        else Raise NameError                     (* msdd_preds_mixed unbound *)
      else Raise NotImplementedError
  | _ =>
      (* single channel case, line 2300: the second positional argument is
         [offset] *)
      m <- generate_speaker_timestamps clus_labels (PyFloat offset) threshold
             default_max_overlap_count p ;;
      Ok (to_float_mat m)
  end.

Definition ncols_of (msdd_preds : pyval) : nat :=
  match msdd_preds with
  | Tensor2 n _ | Tensor3 n _ _ => n
  | _ => O
  end.

Definition mixdown_msdd_preds (clus_labels : list Z) (msdd_preds : pyval)
  (offset threshold : Q) (vad_params : vad_params_t) (p : params)
  : result (list (list (Q * Q))) :=
  speaker_assign_mat <-
    mixdown_assign_mat clus_labels msdd_preds offset threshold p ;;
  if use_ts_vad p then
    Ok (map (fun spk_id =>
               map (fun iv => (Qred (fst iv + offset), Qred (snd iv + offset)))
                   (ts_vad_post_processing
                      (map (fun r => nth spk_id r 0%Q) speaker_assign_mat)
                      vad_params (hop_len_in_cs p)))
            (seq 0 (ncols_of msdd_preds)))
  else Raise NameError.                          (* [timestamps] unbound *)

End Mixdown.

(** *** Inputs used in the properties below *)

Definition overlap_params : params :=
  mkParams true true 0 0 "post_max" true 1.

Definition top1_params : params :=
  mkParams false true 0 0 "post_max" true 1.

Definition weak_overlap_preds : matrix :=
  [[Fin (1 # 4); Fin (1 # 8)]; [Fin (1 # 8); Fin (1 # 4)]].

End Msdd.

(** ** Clustering driver: the scale index of each session *)

Module Clustering.

(** The keys of a manifest entry and of [clustering_params] that decide
    the control flow of the driver. *)
Record audio_rttm_values : Type := mkValues {
  num_speakers : option Z
}.

Record clustering_params : Type := mkClusParams {
  clustering_scale_index : Z;
  oracle_num_speakers : bool
}.

(** Python dictionaries keyed by [uniq_id]; [AUDIO_RTTM_MAP] is iterated
    in insertion order. *)
Fixpoint lookup {V : Type} (d : list (string * V)) (k : string) : result V :=
  match d with
  | [] => Raise KeyError
  | (k', v) :: rest => if String.eqb k' k then Ok v else lookup rest k
  end.

Section Driver.

(** What a session computes once its scale index is fixed (the calls from
    [get_ms_embs_and_ts] to [get_cluster_labels_infer] and the emission of
    labels): an external collaborator, which receives the scale index, the
    session id and the segment count. *)
Variable labels : Type.
Variable cluster_session : Z -> string -> Z -> result labels.

Definition DEFAULT_LONG_AUDIO_THRES : Z := 100000.

(** Lines 720-729 and 752-757 of [perform_clustering_session_embs]:
    the scale index is derived from the configuration at every call. *)
Definition perform_clustering_session_embs (uniq_id : string)
  (scale_map_len : Z) (v : audio_rttm_values) (cp : clustering_params)
  (long_audio_thres : Z) : result (Z * labels) :=
  let base_scale_idx := clustering_scale_index cp in
  let base_scale_idx :=
    if long_audio_thres <? scale_map_len
    then Z.max 0 (base_scale_idx - 1) else base_scale_idx in
  if oracle_num_speakers cp && match num_speakers v with None => true | _ => false end
  then Raise ValueError
  else
    l <- cluster_session base_scale_idx uniq_id scale_map_len ;;
    Ok (base_scale_idx, l).

(** The loop of lines 845-941 of [perform_clustering_embs], threading the
    local variable [base_scale_idx]; every session is returned with the
    scale index its clustering ran at. *)
Fixpoint sessions_loop (base_scale_idx : Z)
  (items : list (string * audio_rttm_values))
  (scale_mapping_dict : list (string * Z))
  (embeddings_dict time_stamps_dict vad_probs_dict : list (string * unit))
  (cp : clustering_params) (long_audio_thres : Z)
  : result (list (string * Z * labels)) :=
  match items with
  | [] => Ok []
  | (uniq_id, v) :: rest =>
      scale_map_len <- lookup scale_mapping_dict uniq_id ;;
      _ <- lookup embeddings_dict uniq_id ;;
      _ <- lookup time_stamps_dict uniq_id ;;
      _ <- lookup vad_probs_dict uniq_id ;;
      let base_scale_idx :=
        if long_audio_thres <? scale_map_len
        then Z.max 0 (base_scale_idx - 1) else base_scale_idx in
      if oracle_num_speakers cp
         && match num_speakers v with None => true | _ => false end
      then Raise ValueError
      else
        l <- cluster_session base_scale_idx uniq_id scale_map_len ;;
        others <- sessions_loop base_scale_idx rest scale_mapping_dict
                    embeddings_dict time_stamps_dict vad_probs_dict cp
                    long_audio_thres ;;
        Ok ((uniq_id, base_scale_idx, l) :: others)
  end.

Definition perform_clustering_embs
  (embeddings_dict time_stamps_dict vad_probs_dict : list (string * unit))
  (scale_mapping_dict : list (string * Z))
  (AUDIO_RTTM_MAP : list (string * audio_rttm_values))
  (cp : clustering_params) (long_audio_thres : Z)
  : result (list (string * Z * labels)) :=
  match embeddings_dict, time_stamps_dict with
  | [], _ => Raise ValueError
  | _, [] => Raise ValueError
  | _, _ =>
      let base_scale_idx := clustering_scale_index cp in
      sessions_loop base_scale_idx AUDIO_RTTM_MAP scale_mapping_dict
        embeddings_dict time_stamps_dict vad_probs_dict cp long_audio_thres
  end.

End Driver.

(** The scale index the specification prescribes for one session. *)
Definition session_scale_index (cp : clustering_params)
  (long_audio_thres scale_map_len : Z) : Z :=
  if long_audio_thres <? scale_map_len
  then Z.max 0 (clustering_scale_index cp - 1)
  else clustering_scale_index cp.

(** Two sessions, a long one followed by a short one. *)
Definition two_sessions : list (string * audio_rttm_values) :=
  [("long"%string, mkValues None); ("short"%string, mkValues None)].

Definition two_scale_maps : list (string * Z) :=
  [("long"%string, 100001); ("short"%string, 5)].

Definition two_tensors : list (string * unit) :=
  [("long"%string, tt); ("short"%string, tt)].

End Clustering.

(** ** Online segmentor *)

Module Online.

Import Intervals.

Record OnlineSegmentor : Type := mkSegmentor {
  frame_start : Q;
  buffer_start : Q;
  buffer_end : Q;
  sample_rate : Z;
  cumulative_speech_labels : list interval
}.

(** The loop of lines 1660-1666 walks [segment_range_ts] from its end;
    walking past the front is an index error. *)
Fixpoint cursor_loop (frame_start : Q) (rev_ranges : list interval)
  (cursor_for_old_segments : Q) (count : nat) : result (Q * nat) :=
  match rev_ranges with
  | [] => Raise IndexError
  | t_range :: rest =>
      if Qleb frame_start (snd t_range)
      then cursor_loop frame_start rest (fst t_range) (S count)
      else Ok (cursor_for_old_segments, count)
  end.

Definition get_new_cursor_for_update (frame_start : Q)
  (segment_range_ts : list interval) : result (Q * nat) :=
  match segment_range_ts with
  | [] => Ok (frame_start, O)
  | _ =>
      r <- cursor_loop frame_start (rev segment_range_ts) frame_start O ;;
      Ok (fst r, (length segment_range_ts - snd r)%nat)
  end.

Definition get_speech_labels_for_update (frame_start buffer_end : Q)
  (vad_timestamps cumulative_speech_labels : list interval)
  (cursor_for_old_segments : Q) : result (list interval * list interval) :=
  let update_overlap_range :=
    if Qltb cursor_for_old_segments frame_start
    then Some (cursor_for_old_segments, frame_start) else None in
  new_incoming_speech_labels <-
    get_sub_range_list (Some (frame_start, buffer_end)) vad_timestamps ;;
  update_overlap_speech_labels <-
    get_sub_range_list update_overlap_range cumulative_speech_labels ;;
  let speech_label_for_new_segments :=
    merge_float_intervals
      (update_overlap_speech_labels ++ new_incoming_speech_labels)
      default_decimals 0 in
  let cumulative_speech_labels :=
    merge_float_intervals
      (cumulative_speech_labels ++ new_incoming_speech_labels)
      default_decimals 0 in
  Ok (speech_label_for_new_segments, cumulative_speech_labels).

(** What [run_online_segmentation] has computed when it reaches the
    collection of signals (line 2531): the segmentor, the speech labels to
    cut subsegments from, and the three truncated segment lists. *)
Record update (A : Type) : Type := mkUpdate {
  segmentor : OnlineSegmentor;
  speech_labels_for_update : list interval;
  kept_raw_audio : list A;
  kept_range_ts : list interval;
  kept_indexes : list Z
}.

Arguments mkUpdate {A}.
Arguments segmentor {A}.
Arguments speech_labels_for_update {A}.
Arguments kept_raw_audio {A}.
Arguments kept_range_ts {A}.
Arguments kept_indexes {A}.

Definition set_cumulative (self : OnlineSegmentor) (c : list interval)
  : OnlineSegmentor :=
  mkSegmentor (frame_start self) (buffer_start self) (buffer_end self)
              (sample_rate self) c.

(** Lines 2506-2529 of [OnlineSegmentor.run_online_segmentation]; the
    collection of signals that follows does not assign
    [cumulative_speech_labels]. *)
Definition run_online_segmentation {A : Type} (self : OnlineSegmentor)
  (vad_timestamps : list interval) (segment_raw_audio : list A)
  (segment_range_ts : list interval) (segment_indexes : list Z)
  : result (update A) :=
  if Qleb 0 (buffer_start self) then
    match segment_raw_audio, vad_timestamps with
    | [], (s0, e0) :: vrest =>
        let vad_timestamps := (Qmax' s0 0, e0) :: vrest in
        Ok (mkUpdate (set_cumulative self vad_timestamps) vad_timestamps
                     segment_raw_audio segment_range_ts segment_indexes)
    | _, _ =>
        c <- get_new_cursor_for_update (frame_start self) segment_range_ts ;;
        let '(cursor_for_old_segments, cursor_index) := c in
        let segment_range_ts := firstn cursor_index segment_range_ts in
        let segment_raw_audio := firstn cursor_index segment_raw_audio in
        let segment_indexes := firstn cursor_index segment_indexes in
        if negb (Nat.eqb (length segment_raw_audio) (length segment_range_ts)
                 && Nat.eqb (length segment_range_ts) (length segment_indexes))
        then Raise ValueError
        else
          (* positional call of line 2523: the third argument is the
             segmentor's cumulative labels, the fourth the new VAD *)
          r <- get_speech_labels_for_update (frame_start self)
                 (buffer_end self) (cumulative_speech_labels self)
                 vad_timestamps cursor_for_old_segments ;;
          Ok (mkUpdate (set_cumulative self (snd r)) (fst r)
                       segment_raw_audio segment_range_ts segment_indexes)
    end
  else
    Ok (mkUpdate self [] segment_raw_audio segment_range_ts segment_indexes).

(** The update of the cumulative labels that the specification states:
    the prior cumulative labels merged with the new VAD restricted to
    [frame_start, buffer_end]. *)
Definition stated_cumulative (self : OnlineSegmentor)
  (vad_timestamps : list interval) : result (list interval) :=
  new_incoming <-
    get_sub_range_list (Some (frame_start self, buffer_end self))
                       vad_timestamps ;;
  Ok (merge_float_intervals (cumulative_speech_labels self ++ new_incoming)
                            default_decimals 0).

(** A segmentor on a later call: frame start 4, buffer [0, 7], prior
    cumulative labels [0, 1]. *)
Definition running_segmentor : OnlineSegmentor :=
  mkSegmentor 4 0 7 16000 [(0, 1)]%Q.

End Online.

(** ** Online segmentor: cutting signals out of the buffer *)

Module OnlineBuffer.

Import Intervals.

(** [int(x)] on a float: truncation towards zero. *)
Definition Qtrunc (x : Q) : Z :=
  if Qleb 0 x then Qfloor x else Qceiling x.

(** Python slice [l[a:b]] on a sequence, negative positions counting from
    the end. *)
Definition norm_index (len i : Z) : Z :=
  if i <? 0 then Z.max (i + len) 0 else Z.min i len.

Definition pyslice {A : Type} (a b : Z) (l : list A) : list A :=
  let len := Z.of_nat (length l) in
  let na := norm_index len a in
  let nb := norm_index len b in
  firstn (Z.to_nat (nb - na)) (skipn (Z.to_nat na) l).

Definition get_target_sig {A : Type} (sig : list A) (start_sec end_sec : Q)
  (slice_length sample_rate : Z) : list A :=
  let start_idx := Qtrunc (start_sec * inject_Z sample_rate) in
  let end_idx := Z.min (Qtrunc (end_sec * inject_Z sample_rate))
                       (slice_length + start_idx) in
  pyslice start_idx end_idx sig.

Section Buffer.

(** Samples of the audio buffer, and [repeat_signal] of
    nemo.collections.asr.data.audio_to_label, an external collaborator
    that pads a short signal by repetition. *)
Variable sample : Type.
Variable repeat_signal : list sample -> nat -> Z -> list sample.

(** The loop of lines 1710-1735, from the subsegment list and the running
    index. *)
Fixpoint slices_loop (sig : list sample) (buffer_start buffer_end : Q)
  (slice_length sample_rate : Z) (subsegments : list (Q * Q)) (ind_offset : Z)
  : result (Z * (list (list sample) * list interval * list Z)) :=
  match subsegments with
  | [] => Ok (ind_offset, ([], [], []))
  | (start_sec, dur) :: rest =>
      if Qltb buffer_end start_sec then
        slices_loop sig buffer_start buffer_end slice_length sample_rate rest
                    ind_offset
      else
        let ind_offset := ind_offset + 1 in
        let buffer_len := (buffer_end - buffer_start)%Q in
        let end_sec := (start_sec + dur)%Q in
        let end_sec :=
          if Qltb buffer_len end_sec then Qmin' end_sec buffer_len
          else end_sec in
        let signal :=
          get_target_sig sig start_sec end_sec slice_length sample_rate in
        if Nat.eqb (length signal) 0 then Raise ValueError
        else
          let signal :=
            if Z.of_nat (length signal) <? slice_length
            then repeat_signal signal (length signal) slice_length
            else signal in
          r <- slices_loop sig buffer_start buffer_end slice_length
                 sample_rate rest ind_offset ;;
          let '(last_ind, (sigs, ranges, inds)) := r in
          Ok (last_ind,
              (signal :: sigs,
               ((buffer_start + start_sec)%Q, (buffer_start + end_sec)%Q)
                 :: ranges,
               ind_offset :: inds))
  end.

Definition get_online_segments_from_slices (sig : list sample)
  (buffer_start buffer_end : Q) (subsegments : list (Q * Q)) (ind_offset : Z)
  (window : Q) (sample_rate : Z)
  : result (Z * (list (list sample) * list interval * list Z)) :=
  let slice_length := Qtrunc (window * inject_Z sample_rate) in
  r <- slices_loop sig buffer_start buffer_end slice_length sample_rate
         subsegments ind_offset ;;
  let '(last_ind, (sigs_list, sig_rangel_list, sig_indexes)) := r in
  if negb (Nat.eqb (length sigs_list) (length sig_rangel_list)
           && Nat.eqb (length sig_rangel_list) (length sig_indexes))
  then Raise ValueError
  else Ok r.

(** The loop of lines 1792-1811 over the speech labels.  The offsets and
    durations are exact differences here; the code rounds them as Python
    floats. *)
Fixpoint labels_loop (buffer_start buffer_end : Q) (sample_rate : Z)
  (audio_buffer : list sample) (window shift : Q)
  (speech_labels_for_update : list interval) (ind_offset : Z)
  : result (list (list sample) * list interval * list Z) :=
  match speech_labels_for_update with
  | [] => Ok ([], [], [])
  | range_spl :: rest =>
      let range_offs :=
        ((fst range_spl - buffer_start)%Q, (snd range_spl - buffer_start)%Q) in
      let range_t := (Qmax' 0 (fst range_offs), snd range_offs) in
      subsegments <-
        Subsegments.get_subsegments (fst range_t) window shift
          (snd range_t - fst range_t)
          Subsegments.default_min_subsegment_duration
          Subsegments.default_decimals ;;
      r <- get_online_segments_from_slices audio_buffer buffer_start
             buffer_end subsegments ind_offset window sample_rate ;;
      let '(ind_offset, (sigs, ranges, inds)) := r in
      others <- labels_loop buffer_start buffer_end sample_rate audio_buffer
                  window shift rest ind_offset ;;
      let '(sigs', ranges', inds') := others in
      Ok (sigs ++ sigs', ranges ++ ranges', inds ++ inds')
  end.

Definition get_online_subsegments_from_buffer (buffer_start buffer_end : Q)
  (sample_rate : Z) (speech_labels_for_update : list interval)
  (audio_buffer : list sample) (segment_indexes : list Z) (window shift : Q)
  : result (list (list sample) * list interval * list Z) :=
  let ind_offset :=
    match rev segment_indexes with
    | last_index :: _ => last_index
    | [] => -1
    end in
  r <- labels_loop buffer_start buffer_end sample_rate audio_buffer window
         shift speech_labels_for_update ind_offset ;;
  let '(sigs_list, sig_rangel_list, sig_indexes) := r in
  if negb (Nat.eqb (length sigs_list) (length sig_rangel_list)
           && Nat.eqb (length sig_rangel_list) (length sig_indexes))
  then Raise AssertionError
  else Ok r.

End Buffer.

(** The integers [first, first + 1, ..., first + n - 1]. *)
Definition consecutive (first : Z) (n : nat) : list Z :=
  map (fun k => first + Z.of_nat k) (seq 0 n).

End OnlineBuffer.

(** ** Scale schedule: [parse_scale_configs] *)

Module Scales.

(** A configuration value: a bare float, a list of numbers, or anything
    else ([None], an int, a string). *)
Inductive cfg : Type :=
| CFloat (x : Q)
| CList (l : list Q)
| COther.

Definition is_list (c : cfg) : bool :=
  match c with
  | CList _ => true
  | _ => false
  end.

(** [sorted(l)]: the values in ascending order. *)
Fixpoint qinsert (x : Q) (l : list Q) : list Q :=
  match l with
  | [] => [x]
  | y :: tl => if Qleb x y then x :: l else y :: qinsert x tl
  end.

Fixpoint qsorted (l : list Q) : list Q :=
  match l with
  | [] => []
  | x :: tl => qinsert x (qsorted tl)
  end.

(** [a == b] on lists of floats. *)
Fixpoint qlist_eqb (a b : list Q) : bool :=
  match a, b with
  | [], [] => true
  | x :: a', y :: b' => Qeqb x y && qlist_eqb a' b'
  | _, _ => false
  end.

Record scale_args : Type := mkScaleArgs {
  use_single_scale_clustering : bool;
  scale_dict : list (nat * (Q * Q));
  multiscale_weights : list Q
}.

(** [x[0]]. *)
Definition first_item (l : list Q) : result Q :=
  match l with
  | [] => Raise IndexError
  | x :: _ => Ok x
  end.

(** Lines 187-212, on the three lists. *)
Definition check_and_build (window_lengths shift_lengths weights : list Q)
  : result (option scale_args) :=
  let length_check :=
    Nat.eqb (length window_lengths) (length shift_lengths)
    && Nat.eqb (length shift_lengths) (length weights)
    && Nat.ltb 0 (length weights) in
  let scale_order_check :=
    qlist_eqb window_lengths (rev (qsorted window_lengths))
    && qlist_eqb shift_lengths (rev (qsorted shift_lengths)) in
  shift_length_check <-
    (if Nat.ltb 1 (length window_lengths) then
       Ok (forallb (fun ws : Q * Q => Qltb (snd ws) (fst ws))
                   (combine window_lengths shift_lengths))
     else
       w0 <- first_item window_lengths ;;
       s0 <- first_item shift_lengths ;;
       Ok (Qltb s0 w0)) ;;
  if length_check && scale_order_check && shift_length_check then
    let pairs :=
      if Nat.ltb 1 (length window_lengths)
      then combine window_lengths shift_lengths
      else match window_lengths, shift_lengths with
           | w0 :: _, s0 :: _ => [(w0, s0)]
           | _, _ => []
           end in
    Ok (Some (mkScaleArgs false (combine (seq 0 (length pairs)) pairs)
                          weights))
  else Raise ValueError.

Definition parse_scale_configs
  (window_lengths_in_sec shift_lengths_in_sec multiscale_weights : cfg)
  : result (option scale_args) :=
  let any_list :=
    is_list window_lengths_in_sec || is_list shift_lengths_in_sec
    || is_list multiscale_weights in
  match window_lengths_in_sec, shift_lengths_in_sec, multiscale_weights with
  | CFloat w, CFloat s, _ => check_and_build [w] [s] [1%Q]
  | CList w, CList s, CList m => check_and_build w s m
  | _, _, _ => if any_list then Raise ValueError else Ok None
  end.

End Scales.

(** ** Speaker turns: [get_contiguous_stamps], [merge_stamps],
    [generate_cluster_labels] *)

Module Stamps.

(** A line ["start end speaker_k"], by its three fields; the speaker tag is
    given by its integer label. *)
Record stamp : Type := mkStamp {
  st_start : Q;
  st_end : Q;
  st_speaker : Z
}.

(** The loop of lines 302-312: [cur] is [lines[i]] as the previous
    iteration left it. *)
Fixpoint contiguous_from (cur : stamp) (rest : list stamp) : list stamp :=
  match rest with
  | [] => [cur]
  | nxt :: tl =>
      if Qltb (st_start nxt) (st_end cur) then
        let avg := Qred ((st_start nxt + st_end cur) / 2) in
        mkStamp (st_start cur) avg (st_speaker cur)
        :: contiguous_from (mkStamp avg (st_end nxt) (st_speaker nxt)) tl
      else cur :: contiguous_from nxt tl
  end.

Definition get_contiguous_stamps (stamps : list stamp) : list stamp :=
  match stamps with
  | [] => []
  | x :: tl => contiguous_from x tl
  end.

(** The loop of lines 324-332. *)
Fixpoint merge_from (cur : stamp) (rest : list stamp) : list stamp :=
  match rest with
  | [] => [cur]
  | nxt :: tl =>
      if Qeqb (st_end cur) (st_start nxt)
         && (st_speaker cur =? st_speaker nxt)
      then merge_from (mkStamp (st_start cur) (st_end nxt) (st_speaker nxt)) tl
      else cur :: merge_from nxt tl
  end.

Definition merge_stamps (lines : list stamp) : list stamp :=
  match lines with
  | [] => []
  | x :: tl => merge_from x tl
  end.

(** Lines 449-453: one line per cluster label. *)
Fixpoint label_lines (segment_ranges : list (Q * Q)) (cluster_labels : list Z)
  {struct cluster_labels} : result (list stamp) :=
  match cluster_labels with
  | [] => Ok []
  | label :: labels =>
      match segment_ranges with
      | [] => Raise IndexError
      | (stt, end_) :: ranges =>
          rest <- label_lines ranges labels ;;
          Ok (mkStamp stt end_ label :: rest)
      end
  end.

Definition generate_cluster_labels (segment_ranges : list (Q * Q))
  (cluster_labels : list Z) : result (list stamp * list stamp) :=
  lines <- label_lines segment_ranges cluster_labels ;;
  let cont_lines := get_contiguous_stamps lines in
  let diar_hyp := merge_stamps cont_lines in
  Ok (diar_hyp, lines).

(** Two consecutive stamps do not overlap. *)
Definition no_overlap (a b : stamp) : Prop := (st_end a <= st_start b)%Q.

(** Two consecutive stamps could not be merged into one turn. *)
Definition not_mergeable (a b : stamp) : Prop :=
  ~ ((st_end a == st_start b)%Q /\ st_speaker a = st_speaker b).

End Stamps.

(** * Properties *)

(** ** Segment layout *)

(** C5 (as stated, refuted): the call with offset 0, window 1.5, shift 0.75
    and duration 5 does not return 7 subsegments with starts
    0, 0.75, 1.5, 2.25, 3, 3.5, 4.25. *)
Lemma get_subsegments_scenario_not_seven :
  ~ exists l,
      Subsegments.get_subsegments 0 (3 # 2) (3 # 4) 5
        Subsegments.default_min_subsegment_duration
        Subsegments.default_decimals = Ok l
      /\ length l = 7%nat
      /\ map fst l = [0; 3 # 4; 3 # 2; 9 # 4; 3; 7 # 2; 17 # 4]%Q.
Proof.
  intros [l [H [Hlen _]]].
  vm_compute in H. inversion H; subst. discriminate Hlen.
Qed.

(** C5 (amended): the call with offset 0, window 1.5, shift 0.75 and
    duration 5 returns exactly 6 subsegments: starts 0, 0.75, 1.5, 2.25, 3,
    3.75, each of duration 1.5 except the last one, clipped to 1.25. *)
Theorem get_subsegments_scenario :
  Subsegments.get_subsegments 0 (3 # 2) (3 # 4) 5
    Subsegments.default_min_subsegment_duration
    Subsegments.default_decimals
  = Ok [(0, 3 # 2); (3 # 4, 3 # 2); (3 # 2, 3 # 2); (9 # 4, 3 # 2);
        (3, 3 # 2); (15 # 4, 5 # 4)]%Q.
Proof. vm_compute. reflexivity. Qed.

(** C9: at the boundary where the duration equals the shift (window 1.5,
    shift 0.75, duration 0.75) [get_subsegments] computes zero slices and
    raises IndexError on [dur_col[-1]], whereas the older variant
    [get_subsegments_] returns the single subsegment (0, 0.75). *)
Theorem get_subsegments_duration_eq_shift_raises :
  Subsegments.get_subsegments 0 (3 # 2) (3 # 4) (3 # 4)
    Subsegments.default_min_subsegment_duration
    Subsegments.default_decimals = Raise IndexError
  /\ Subsegments.get_subsegments_ 0 (3 # 2) (3 # 4) (3 # 4)
     = Ok [(0, 3 # 4)]%Q.
Proof. split; vm_compute; reflexivity. Qed.

(** ** MSDD post-processor *)

Section MsddProperties.

Import Msdd.

(** C1: with threshold 0.5 and rows (0.25, 0.125), (0.125, 0.25), whose
    logit gap 0.5 reaches the threshold, [generate_speaker_timestamps]
    activates both speakers in both frames although every top-k activation
    is below the threshold; the stated matrix [A_top1 \/ A_ovl] activates
    the top-1 speaker only. *)
Theorem generate_speaker_timestamps_ovl_below_threshold :
  generate_speaker_timestamps [0; 1] (Tensor2 2 weak_overlap_preds) (1 # 2)
    default_max_overlap_count overlap_params
  = Ok [[1; 1]; [1; 1]]
  /\ stated_assign_mat 2 weak_overlap_preds (1 # 2) 2
     = Ok [[1; 0]; [0; 1]]
  /\ forallb (forallb (fun x => flt x (Fin (1 # 2)))) weak_overlap_preds = true.
Proof. repeat split; vm_compute; reflexivity. Qed.

(** C8: a prediction matrix with a NaN in the column of a speaker that the
    clustering never saw is not rejected: with [mask_spks_with_clus] the
    column is overwritten with zeros and an activation matrix is returned,
    directly and through the [post_max] fusion of [mixdown_msdd_preds],
    whereas the guard of [generate_speaker_timestamps_] raises ValueError
    on the same matrix. *)
Theorem generate_speaker_timestamps_accepts_nan :
  has_nan [[Fin (9 # 10); NaN]] = true
  /\ generate_speaker_timestamps [0] (Tensor2 2 [[Fin (9 # 10); NaN]]) (1 # 2)
       default_max_overlap_count top1_params
     = Ok [[1; 0]]
  /\ (forall (vad_params_t : Type)
             (ts_vad_post_processing :
                list Q -> vad_params_t -> Z -> list (Q * Q))
             (vad_params : vad_params_t),
         returns (mixdown_msdd_preds vad_params_t ts_vad_post_processing [0]
                    (Tensor3 2 1 [[[Fin (9 # 10)]; [NaN]]]) 0 (1 # 2)
                    vad_params top1_params))
  /\ nan_guard [[Fin (9 # 10); NaN]] = Raise ValueError.
Proof.
  repeat split; try (vm_compute; reflexivity).
  intros. eexists. vm_compute. reflexivity.
Qed.

(** C10 (as stated, refuted): with [infer_overlap] set and
    [mask_spks_with_clus] unset, a 1-D tensor is rejected by the shape
    guard of lines 2019-2020 with a ValueError, and a cluster label 2 on a
    tensor with two speaker columns fails at line 2033 with an IndexError:
    neither call reaches the read of [active_spk_inds]. *)
Lemma generate_speaker_timestamps_overlap_other_exceptions :
  let p := mkParams true false 0 0 "post_max" true 1 in
  infer_overlap p = true
  /\ mask_spks_with_clus p = false
  /\ generate_speaker_timestamps [0; 1] (Tensor1 [Fin (1 # 4); Fin (1 # 8)])
       (1 # 2) 2 p = Raise ValueError
  /\ generate_speaker_timestamps [0; 2] (Tensor2 2 weak_overlap_preds)
       (1 # 2) 2 p = Raise IndexError.
Proof. repeat split. Qed.

(** C10 (amended): with [infer_overlap] set and [mask_spks_with_clus]
    unset, [generate_speaker_timestamps] never returns a result, and on
    well-shaped inputs the exception is the NameError of the unbound
    [active_spk_inds]. *)
Theorem generate_speaker_timestamps_overlap_needs_mask :
  forall clus_labels msdd_preds threshold max_overlap_count p,
    infer_overlap p = true ->
    mask_spks_with_clus p = false ->
    raises (generate_speaker_timestamps clus_labels msdd_preds threshold
              max_overlap_count p)
    /\ (well_shaped clus_labels msdd_preds = true ->
        generate_speaker_timestamps clus_labels msdd_preds threshold
          max_overlap_count p = Raise NameError).
Proof.
  intros clus msdd th moc p Hinf Hmask.
  assert (Hact : forall n,
             forallb (fun c => c <? Z.of_nat n) clus = true ->
             existsb (fun a => Z.of_nat n <=? a)
                     (filter (fun c => -1 <? c) clus) = false).
  { intros n Hall. apply not_true_is_false. intro Hex.
    apply existsb_exists in Hex. destruct Hex as [a [Hin Hle]].
    apply filter_In in Hin. destruct Hin as [Hin _].
    rewrite forallb_forall in Hall. specialize (Hall a Hin). lia. }
  destruct msdd as [x | d | ncols rows | ncols nch data]; simpl.
  - split; [eexists; reflexivity | discriminate].
  - split; [eexists; reflexivity | discriminate].
  - unfold generate_speaker_timestamps_2d. rewrite Hmask, Hinf. simpl.
    split.
    + destruct (_ || _); eexists; reflexivity.
    + intro Hws. apply andb_true_iff in Hws. destruct Hws as [Hlen Hall].
      rewrite Hlen, (Hact _ Hall). reflexivity.
  - rewrite Hmask, Hinf. simpl. split.
    + destruct (_ || _); eexists; reflexivity.
    + intro Hws. apply andb_true_iff in Hws. destruct Hws as [Hlen Hall].
      rewrite Hlen, (Hact _ Hall). reflexivity.
Qed.

Lemma generate_speaker_timestamps_overlap_needs_mask_witness :
  raises (generate_speaker_timestamps [0; 1] (Tensor2 2 weak_overlap_preds)
            (1 # 2) 2 (mkParams true false 0 0 "post_max" true 1))
  /\ (well_shaped [0; 1] (Tensor2 2 weak_overlap_preds) = true ->
      generate_speaker_timestamps [0; 1] (Tensor2 2 weak_overlap_preds)
        (1 # 2) 2 (mkParams true false 0 0 "post_max" true 1)
      = Raise NameError).
Proof.
  apply (generate_speaker_timestamps_overlap_needs_mask
           [0; 1] (Tensor2 2 weak_overlap_preds) (1 # 2) 2
           (mkParams true false 0 0 "post_max" true 1));
    reflexivity.
Defined.

(** C2: for a 2-D [msdd_preds], [mixdown_msdd_preds] hands [offset], a
    float, to [generate_speaker_timestamps] in the place of [msdd_preds]
    and raises AttributeError whatever the predictions are; the direct call
    on the predictions returns an activation matrix. *)
Theorem mixdown_msdd_preds_single_channel_raises :
  (forall (vad_params_t : Type)
          (ts_vad_post_processing : list Q -> vad_params_t -> Z -> list (Q * Q))
          clus_labels ncols rows offset threshold vad_params p,
      mixdown_msdd_preds vad_params_t ts_vad_post_processing clus_labels
        (Tensor2 ncols rows) offset threshold vad_params p
      = Raise AttributeError)
  /\ generate_speaker_timestamps [0; 1] (Tensor2 2 weak_overlap_preds) (1 # 2)
       default_max_overlap_count overlap_params
     = Ok [[1; 1]; [1; 1]].
Proof.
  split.
  - intros. reflexivity.
  - vm_compute. reflexivity.
Qed.

End MsddProperties.

(** ** Clustering driver *)

Section ClusteringProperties.

Import Clustering.

(** C3: with [clustering_scale_index = 2] and a long session (100001
    segments) followed by a short one (5 segments), the loop of
    [perform_clustering_embs] runs the short session at scale index 1, the
    value left by the long session, whereas the per-session rule (and
    [perform_clustering_session_embs]) gives it index 2. *)
Theorem perform_clustering_embs_scale_index_carried_over :
  forall (labels : Type) (cluster_session : Z -> string -> Z -> result labels),
    (forall b u n, returns (cluster_session b u n)) ->
    (exists l,
        perform_clustering_embs labels cluster_session two_tensors two_tensors
          two_tensors two_scale_maps two_sessions (mkClusParams 2 false)
          DEFAULT_LONG_AUDIO_THRES = Ok l
        /\ map (fun x => snd (fst x)) l = [1; 1])
    /\ session_scale_index (mkClusParams 2 false) DEFAULT_LONG_AUDIO_THRES 5 = 2
    /\ (exists l,
           perform_clustering_session_embs labels cluster_session "short" 5
             (mkValues None) (mkClusParams 2 false) DEFAULT_LONG_AUDIO_THRES
           = Ok (2, l)).
Proof.
  intros labels cs Hret. split; [|split].
  - destruct (Hret 1 "long"%string 100001) as [l1 H1].
    destruct (Hret 1 "short"%string 5) as [l2 H2].
    exists [("long"%string, 1, l1); ("short"%string, 1, l2)].
    split; [|reflexivity].
    cbn. rewrite H1. cbn. rewrite H2. reflexivity.
  - reflexivity.
  - destruct (Hret 2 "short"%string 5) as [l2 H2]. exists l2.
    cbv [perform_clustering_session_embs]. cbn. rewrite H2. reflexivity.
Qed.

Lemma perform_clustering_embs_scale_index_carried_over_witness :
  (exists l,
      perform_clustering_embs unit (fun _ _ _ => Ok tt) two_tensors two_tensors
        two_tensors two_scale_maps two_sessions (mkClusParams 2 false)
        DEFAULT_LONG_AUDIO_THRES = Ok l
      /\ map (fun x => snd (fst x)) l = [1; 1])
  /\ session_scale_index (mkClusParams 2 false) DEFAULT_LONG_AUDIO_THRES 5 = 2
  /\ (exists l,
         perform_clustering_session_embs unit (fun _ _ _ => Ok tt) "short" 5
           (mkValues None) (mkClusParams 2 false) DEFAULT_LONG_AUDIO_THRES
         = Ok (2, l)).
Proof.
  apply (perform_clustering_embs_scale_index_carried_over unit
           (fun _ _ _ => Ok tt)).
  intros b u n. exists tt. reflexivity.
Defined.

End ClusteringProperties.

(** ** Online segmentor *)

Section OnlineProperties.

Import Intervals Online.

(** C4: on a later call with prior cumulative labels [0, 1], new VAD
    [5, 6], frame start 4 and buffer end 7, the segmentor's cumulative
    labels become [5, 6] alone: the caller passes the cumulative labels and
    the new VAD in each other's place, so the prior labels are the ones
    restricted to [4, 7].  The stated update gives [0, 1], [5, 6]. *)
Theorem run_online_segmentation_drops_prior_labels :
  (exists u,
      run_online_segmentation running_segmentor [(5, 6)]%Q [tt] [(0, 1)]%Q [0]
      = Ok u
      /\ cumulative_speech_labels (segmentor u) = [(5, 6)]%Q)
  /\ stated_cumulative running_segmentor [(5, 6)]%Q = Ok [(0, 1); (5, 6)]%Q.
Proof.
  split.
  - eexists. split; vm_compute; reflexivity.
  - vm_compute. reflexivity.
Qed.

End OnlineProperties.

(** ** Interval algebra *)

Section MergeProperties.

Import Intervals.

(** *** Rounding *)

Lemma round_half_even_int (q : Q) (n : Z) :
  q == inject_Z n -> round_half_even q = n.
Proof.
  intro H. unfold round_half_even.
  assert (Hf : Qfloor q = n) by (rewrite H; apply Qfloor_Z).
  rewrite Hf.
  assert (Hc : (q - inject_Z n ?= 1 # 2)%Q = Lt).
  { rewrite H. apply Qlt_alt. ring_simplify (inject_Z n - inject_Z n)%Q.
    reflexivity. }
  rewrite Hc. reflexivity.
Qed.

Lemma round_half_even_bounds (x : Q) :
  Qfloor x <= round_half_even x <= Qfloor x + 1.
Proof.
  unfold round_half_even.
  destruct (Qcompare _ _); [destruct (Z.even _)| |]; lia.
Qed.

Lemma round_half_even_mono (x y : Q) :
  (x <= y)%Q -> round_half_even x <= round_half_even y.
Proof.
  intro Hxy. pose proof (Qfloor_resp_le x y Hxy) as Hf.
  destruct (Z.eq_dec (Qfloor x) (Qfloor y)) as [E|N].
  - unfold round_half_even. rewrite <- E.
    destruct (Qcompare_spec (x - inject_Z (Qfloor x)) (1 # 2)) as [Hx|Hx|Hx];
      destruct (Qcompare_spec (y - inject_Z (Qfloor x)) (1 # 2)) as [Hy|Hy|Hy];
      try destruct (Z.even (Qfloor x)); try lia; exfalso; lra.
  - pose proof (round_half_even_bounds x). pose proof (round_half_even_bounds y).
    lia.
Qed.

Lemma pow2_pos (k : Z) : (0 < 2 ^ k)%Q.
Proof. apply Qpower_0_lt. reflexivity. Qed.

Lemma pow2_add (a b : Z) : (2 ^ (a + b) == 2 ^ a * 2 ^ b)%Q.
Proof. apply Qpower_plus. discriminate. Qed.

Lemma pow2_le (a b : Z) : a <= b -> (2 ^ a <= 2 ^ b)%Q.
Proof. intro H. apply Qpower_le_compat_l; [exact H|discriminate]. Qed.

Lemma pow2_Z (k : Z) : 0 <= k -> (inject_Z (2 ^ k) == 2 ^ k)%Q.
Proof. intro H. rewrite (Zpower_Qpower 2 k H). reflexivity. Qed.

(** A power of two is a multiple of every smaller one. *)
Lemma pow2_multiple (a k : Z) :
  k <= a -> (2 ^ a == inject_Z (2 ^ (a - k)) * 2 ^ k)%Q.
Proof.
  intro H. rewrite pow2_Z by lia. rewrite <- pow2_add.
  replace (a - k + k) with a by lia. reflexivity.
Qed.

Lemma log2_bounds (n : Z) :
  0 < n ->
  (2 ^ Z.log2 n <= inject_Z n /\ inject_Z n < 2 ^ (Z.log2 n + 1))%Q.
Proof.
  intro Hn. destruct (Z.log2_spec n Hn) as [H1 H2].
  pose proof (Z.log2_nonneg n) as H0.
  rewrite <- !pow2_Z by lia. split.
  - rewrite <- Zle_Qle. exact H1.
  - rewrite <- Zlt_Qlt. replace (Z.log2 n + 1) with (Z.succ (Z.log2 n)) by lia.
    exact H2.
Qed.

Lemma binade_spec (x : Q) :
  ~ x == 0 ->
  (2 ^ binade x <= Qabs x /\ Qabs x < 2 ^ (binade x + 1))%Q.
Proof.
  intro Hx. unfold binade.
  set (n := Z.abs (Qnum x)). set (d := Zpos (Qden x)).
  set (e := Z.log2 n - Z.log2 d).
  assert (Hn : 0 < n).
  { unfold n. destruct x as [xn xd]. unfold Qeq in Hx. simpl in *. lia. }
  destruct (log2_bounds n Hn) as [N1 N2].
  destruct (log2_bounds d (Pos2Z.is_pos _)) as [D1 D2].
  assert (Habs : (Qabs x * inject_Z d == inject_Z n)%Q).
  { destruct x as [xn xd]. unfold n, d, Qabs. simpl.
    rewrite (Qmake_Qdiv (Z.abs xn) xd). field. discriminate. }
  assert (Hd : (0 < inject_Z d)%Q).
  { unfold Qlt, d. simpl. lia. }
  pose proof (Qabs_nonneg x) as Hnn.
  assert (Up : (Qabs x < 2 ^ (e + 1))%Q).
  { apply Qnot_le_lt. intro Hc.
    assert (E1 : (2 ^ (Z.log2 n + 1) == 2 ^ (e + 1) * 2 ^ Z.log2 d)%Q).
    { rewrite <- pow2_add. unfold e.
      replace (Z.log2 n - Z.log2 d + 1 + Z.log2 d) with (Z.log2 n + 1) by lia.
      reflexivity. }
    pose proof (pow2_pos (e + 1)). pose proof (pow2_pos (Z.log2 d)).
    assert ((2 ^ (e + 1) * 2 ^ Z.log2 d <= Qabs x * inject_Z d)%Q).
    { apply Qmult_le_compat_nonneg; split; try assumption;
        apply Qlt_le_weak; assumption. }
    lra. }
  assert (Lo : (2 ^ (e - 1) <= Qabs x)%Q).
  { apply Qnot_lt_le. intro Hc.
    assert (E1 : (2 ^ Z.log2 n == 2 ^ (e - 1) * 2 ^ (Z.log2 d + 1))%Q).
    { rewrite <- pow2_add. unfold e.
      replace (Z.log2 n - Z.log2 d - 1 + (Z.log2 d + 1)) with (Z.log2 n)
        by lia.
      reflexivity. }
    pose proof (pow2_pos (e - 1)). pose proof (pow2_pos (Z.log2 d + 1)).
    assert (A : (Qabs x * inject_Z d <= 2 ^ (e - 1) * inject_Z d)%Q).
    { apply Qmult_le_compat_r; apply Qlt_le_weak; assumption. }
    assert (B : (2 ^ (e - 1) * inject_Z d
                 < 2 ^ (e - 1) * 2 ^ (Z.log2 d + 1))%Q).
    { apply Qmult_lt_l; assumption. }
    lra. }
  destruct (Qle_bool (2 ^ e) (Qabs x)) eqn:T.
  - apply Qle_bool_iff in T. split; assumption.
  - replace (e - 1 + 1) with e by lia. split; [exact Lo|].
    apply Qnot_le_lt. intro Hc. apply Qle_bool_iff in Hc. congruence.
Qed.


Lemma binade_mono (x y : Q) :
  ~ x == 0 -> ~ y == 0 -> (Qabs x <= Qabs y)%Q -> binade x <= binade y.
Proof.
  intros Hx Hy Hxy.
  destruct (binade_spec x Hx) as [X1 _]. destruct (binade_spec y Hy) as [_ Y2].
  destruct (Z_le_gt_dec (binade x) (binade y)) as [L|G]; [exact L|].
  exfalso. pose proof (pow2_le (binade y + 1) (binade x) ltac:(lia)). lra.
Qed.

(** Rounding a quotient to an integer stays on the same side of every
    integer multiple of the unit. *)
Lemma grid_le (z u : Q) (N : Z) :
  (0 < u)%Q -> (z <= inject_Z N * u)%Q ->
  (inject_Z (round_half_even (z / u)) * u <= inject_Z N * u)%Q.
Proof.
  intros Hu Hz. apply Qmult_le_compat_r; [|apply Qlt_le_weak; exact Hu].
  rewrite <- Zle_Qle. rewrite <- (round_half_even_int (inject_Z N) N)
    by reflexivity.
  apply round_half_even_mono. apply Qle_shift_div_r; assumption.
Qed.

Lemma grid_ge (z u : Q) (N : Z) :
  (0 < u)%Q -> (inject_Z N * u <= z)%Q ->
  (inject_Z N * u <= inject_Z (round_half_even (z / u)) * u)%Q.
Proof.
  intros Hu Hz. apply Qmult_le_compat_r; [|apply Qlt_le_weak; exact Hu].
  rewrite <- Zle_Qle. rewrite <- (round_half_even_int (inject_Z N) N) at 1
    by reflexivity.
  apply round_half_even_mono. apply Qle_shift_div_l; assumption.
Qed.

Section Format.

Variable f : binary_format.
Hypothesis prec_pos : 1 <= prec f.

Let ulp_exp (x : Q) : Z := Z.max (binade x - prec f + 1) (emin f).

Lemma round_to_eq (x : Q) :
  ~ x == 0 ->
  (round_to f x
   == inject_Z (round_half_even (x / 2 ^ ulp_exp x)) * 2 ^ ulp_exp x)%Q.
Proof.
  intro Hx. unfold round_to.
  destruct (Qeq_bool x 0) eqn:E.
  - apply Qeq_bool_iff in E. contradiction.
  - rewrite Qred_correct. reflexivity.
Qed.

Lemma round_to_zero (x : Q) : x == 0 -> round_to f x = 0%Q.
Proof.
  intro Hx. unfold round_to. apply Qeq_bool_iff in Hx. rewrite Hx. reflexivity.
Qed.

Lemma round_to_nonneg (x : Q) : (0 <= x)%Q -> (0 <= round_to f x)%Q.
Proof.
  intro Hx. destruct (Qeq_dec x 0) as [E|N].
  - rewrite (round_to_zero x E). apply Qle_refl.
  - rewrite (round_to_eq x N).
    pose proof (grid_ge x (2 ^ ulp_exp x) 0 (pow2_pos _)) as G.
    rewrite Qmult_0_l in G. apply G. exact Hx.
Qed.

Lemma round_to_nonpos (x : Q) : (x <= 0)%Q -> (round_to f x <= 0)%Q.
Proof.
  intro Hx. destruct (Qeq_dec x 0) as [E|N].
  - rewrite (round_to_zero x E). apply Qle_refl.
  - rewrite (round_to_eq x N).
    pose proof (grid_le x (2 ^ ulp_exp x) 0 (pow2_pos _)) as G.
    rewrite Qmult_0_l in G. apply G. exact Hx.
Qed.

Lemma same_unit_mono (x y : Q) (k : Z) :
  (x <= y)%Q ->
  (inject_Z (round_half_even (x / 2 ^ k)) * 2 ^ k
   <= inject_Z (round_half_even (y / 2 ^ k)) * 2 ^ k)%Q.
Proof.
  intro Hxy. pose proof (pow2_pos k) as Hk.
  apply Qmult_le_compat_r; [|apply Qlt_le_weak; exact Hk].
  rewrite <- Zle_Qle. apply round_half_even_mono.
  apply Qmult_le_compat_r; [exact Hxy|].
  apply Qlt_le_weak, Qinv_lt_0_compat, Hk.
Qed.

Lemma round_to_mono_pos (x y : Q) :
  (0 < x)%Q -> (x <= y)%Q -> (round_to f x <= round_to f y)%Q.
Proof.
  intros Hx Hxy.
  assert (Nx : ~ x == 0) by (intro E; rewrite E in Hx; discriminate).
  assert (Ny : ~ y == 0) by (intro E; rewrite E in Hxy; lra).
  rewrite (round_to_eq x Nx), (round_to_eq y Ny).
  destruct (binade_spec x Nx) as [_ X2]. destruct (binade_spec y Ny) as [Y1 _].
  rewrite (Qabs_pos x) in X2 by lra. rewrite (Qabs_pos y) in Y1 by lra.
  assert (Hb : binade x <= binade y).
  { apply binade_mono; try assumption.
    rewrite (Qabs_pos x), (Qabs_pos y) by lra. exact Hxy. }
  destruct (Z.eq_dec (ulp_exp x) (ulp_exp y)) as [E|N].
  - rewrite E. apply same_unit_mono. exact Hxy.
  - unfold ulp_exp in *.
    assert (Hy : Z.max (binade y - prec f + 1) (emin f)
                 = binade y - prec f + 1) by lia.
    assert (Hlt : binade x + 1 <= binade y) by lia.
    set (kx := Z.max (binade x - prec f + 1) (emin f)) in *.
    rewrite Hy in *.
    apply Qle_trans with (2 ^ binade y)%Q.
    + rewrite (pow2_multiple (binade y) kx) by lia.
      apply grid_le; [apply pow2_pos|].
      rewrite <- pow2_multiple by lia.
      pose proof (pow2_le _ _ Hlt). lra.
    + rewrite (pow2_multiple (binade y) (binade y - prec f + 1)) at 1 by lia.
      apply grid_ge; [apply pow2_pos|].
      rewrite <- pow2_multiple by lia. exact Y1.
Qed.

Lemma round_to_mono_neg (x y : Q) :
  (y < 0)%Q -> (x <= y)%Q -> (round_to f x <= round_to f y)%Q.
Proof.
  intros Hy Hxy.
  assert (Nx : ~ x == 0) by (intro E; rewrite E in Hxy; lra).
  assert (Ny : ~ y == 0) by (intro E; rewrite E in Hy; discriminate).
  rewrite (round_to_eq x Nx), (round_to_eq y Ny).
  destruct (binade_spec x Nx) as [X1 _]. destruct (binade_spec y Ny) as [_ Y2].
  rewrite (Qabs_neg x) in X1 by lra. rewrite (Qabs_neg y) in Y2 by lra.
  assert (Hb : binade y <= binade x).
  { apply binade_mono; try assumption.
    rewrite (Qabs_neg x), (Qabs_neg y) by lra. lra. }
  destruct (Z.eq_dec (ulp_exp x) (ulp_exp y)) as [E|N].
  - rewrite E. apply same_unit_mono. exact Hxy.
  - unfold ulp_exp in *.
    assert (Hx : Z.max (binade x - prec f + 1) (emin f)
                 = binade x - prec f + 1) by lia.
    assert (Hlt : binade y + 1 <= binade x) by lia.
    set (ky := Z.max (binade y - prec f + 1) (emin f)) in *.
    rewrite Hx in *.
    assert (Eopp : forall k, k <= binade x ->
               (- 2 ^ binade x == inject_Z (- 2 ^ (binade x - k)) * 2 ^ k)%Q).
    { intros k Hk. rewrite inject_Z_opp, (pow2_multiple (binade x) k Hk) at 1.
      ring. }
    apply Qle_trans with (- 2 ^ binade x)%Q.
    + rewrite (Eopp (binade x - prec f + 1)) by lia.
      apply grid_le; [apply pow2_pos|].
      rewrite <- Eopp by lia. lra.
    + rewrite (Eopp ky) at 1 by lia.
      apply grid_ge; [apply pow2_pos|].
      rewrite <- Eopp by lia.
      pose proof (pow2_le _ _ Hlt). lra.
Qed.

Lemma round_to_mono (x y : Q) :
  (x <= y)%Q -> (round_to f x <= round_to f y)%Q.
Proof.
  intro Hxy.
  destruct (Qlt_le_dec 0 x) as [Px|Nx].
  - apply round_to_mono_pos; assumption.
  - destruct (Qlt_le_dec y 0) as [Ny|Py].
    + apply round_to_mono_neg; assumption.
    + apply Qle_trans with 0%Q;
        [apply round_to_nonpos|apply round_to_nonneg]; assumption.
Qed.

End Format.

Lemma f32_mono (x y : Q) : (x <= y)%Q -> (f32 x <= f32 y)%Q.
Proof. apply round_to_mono. simpl. lia. Qed.

Lemma f64_mono (x y : Q) : (x <= y)%Q -> (f64 x <= f64 y)%Q.
Proof. apply round_to_mono. simpl. lia. Qed.

Lemma torch_round_decimals_mono (d : nat) (a b : Q) :
  (a <= b)%Q -> (torch_round_decimals d a <= torch_round_decimals d b)%Q.
Proof.
  intro Hab. unfold torch_round_decimals.
  set (p := f32 (inject_Z (Zpos (pow10 d)))).
  assert (Hp : (0 <= p)%Q).
  { apply round_to_nonneg. unfold Qle. simpl. lia. }
  apply f32_mono. apply Qmult_le_compat_r; [|apply Qinv_le_0_compat; exact Hp].
  rewrite <- Zle_Qle. apply round_half_even_mono. apply f32_mono.
  apply Qmult_le_compat_r; assumption.
Qed.

(** [int2fl] keeps the order of the integers, but not strictly: two
    integers may come back as the same float32 number. *)
Lemma int2fl_mono (a b : Z) (d : nat) :
  a <= b -> (int2fl a d <= int2fl b d)%Q.
Proof.
  intro Hab. unfold int2fl. apply torch_round_decimals_mono.
  apply f32_mono, f64_mono. apply Qmult_le_compat_r.
  - rewrite <- Zle_Qle. exact Hab.
  - apply Qinv_le_0_compat. unfold Qle. simpl. lia.
Qed.

(** *** Sorting a column *)

Lemma insert_sorted_perm (x : Z) (l : list Z) :
  Permutation (x :: l) (insert_sorted x l).
Proof.
  induction l as [|y tl IH]; simpl.
  - apply Permutation_refl.
  - destruct (x <=? y).
    + apply Permutation_refl.
    + eapply perm_trans; [apply perm_swap|]. apply perm_skip. exact IH.
Qed.

Lemma sort_col_perm (l : list Z) : Permutation l (sort_col l).
Proof.
  induction l as [|x tl IH]; simpl.
  - constructor.
  - eapply perm_trans; [apply perm_skip; exact IH|]. apply insert_sorted_perm.
Qed.

Lemma sort_col_length (l : list Z) : length (sort_col l) = length l.
Proof. symmetry. apply Permutation_length, sort_col_perm. Qed.

Lemma insert_sorted_sorted (x : Z) (l : list Z) :
  StronglySorted Z.le l -> StronglySorted Z.le (insert_sorted x l).
Proof.
  induction 1 as [|y tl Hs IH Hall]; simpl.
  - repeat constructor.
  - destruct (x <=? y) eqn:E.
    + constructor; [constructor; assumption|].
      constructor; [lia|].
      eapply Forall_impl; [|exact Hall]. intros; simpl in *; lia.
    + constructor; [exact IH|].
      eapply Permutation_Forall; [apply insert_sorted_perm|].
      constructor; [lia|exact Hall].
Qed.

Lemma sort_col_sorted (l : list Z) : StronglySorted Z.le (sort_col l).
Proof.
  induction l; simpl; [constructor|]. apply insert_sorted_sorted. assumption.
Qed.

Lemma sort_col_id (l : list Z) : StronglySorted Z.le l -> sort_col l = l.
Proof.
  induction 1 as [|y tl Hs IH Hall]; simpl; [reflexivity|].
  rewrite IH. destruct tl as [|z tl']; simpl; [reflexivity|].
  inversion Hall; subst.
  destruct (y <=? z) eqn:E; [reflexivity|lia].
Qed.

(** *** Counting entries of the two columns *)

Lemma filter_count_perm {A : Type} (f : A -> bool) (l l' : list A) :
  Permutation l l' -> length (filter f l) = length (filter f l').
Proof.
  induction 1; simpl.
  - reflexivity.
  - destruct (f x); simpl; congruence.
  - destruct (f x), (f y); reflexivity.
  - congruence.
Qed.

Lemma filter_count_map {A B : Type} (g : A -> B) (f : B -> bool) (l : list A) :
  length (filter f (map g l)) = length (filter (fun x => f (g x)) l).
Proof.
  induction l as [|x tl IH]; simpl; [reflexivity|].
  destruct (f (g x)); simpl; congruence.
Qed.

Lemma filter_count_all {A : Type} (f : A -> bool) (l : list A) :
  Forall (fun x => f x = true) l -> length (filter f l) = length l.
Proof.
  induction 1 as [|x tl Hx _ IH]; simpl; [reflexivity|].
  rewrite Hx. simpl. congruence.
Qed.

Lemma filter_count_none {A : Type} (f : A -> bool) (l : list A) :
  Forall (fun x => f x = false) l -> length (filter f l) = O.
Proof.
  induction 1 as [|x tl Hx _ IH]; simpl; [reflexivity|].
  rewrite Hx. exact IH.
Qed.

Lemma filter_count_mono {A : Type} (f g : A -> bool) (l : list A) :
  (forall x, In x l -> f x = true -> g x = true) ->
  (length (filter f l) <= length (filter g l))%nat
  /\ (length (filter f l) = length (filter g l) ->
      forall x, In x l -> g x = true -> f x = true).
Proof.
  induction l as [|a tl IH]; intro Himp; simpl.
  - split; [lia|]. intros _ x [].
  - destruct IH as [IHle IHeq].
    { intros x Hin. apply Himp. right. exact Hin. }
    pose proof (Himp a (or_introl eq_refl)) as Ha.
    destruct (f a) eqn:Ef, (g a) eqn:Eg; simpl.
    + split; [lia|]. intros Heq x [Hx|Hx] Hg.
      * subst. exact Ef.
      * apply IHeq; [lia|exact Hx|exact Hg].
    + specialize (Ha eq_refl). discriminate.
    + split; [lia|]. intro Heq. lia.
    + split; [lia|]. intros Heq x [Hx|Hx] Hg.
      * subst. congruence.
      * apply IHeq; assumption.
Qed.

(** If the sorted columns are cut into a left and a right part such that
    the ends on the left are at most [y] and the starts on the right at
    least [z], with [y <= z], then the left part holds no more ends than
    starts; and when it holds as many, every input range keeps to one side
    of the cut. *)
Lemma count_core (l : list (Z * Z)) (S1 S2 E1 E2 : list Z) (y z : Z) :
  Forall (fun p => fst p < snd p) l ->
  Permutation (map fst l) (S1 ++ S2) ->
  Permutation (map snd l) (E1 ++ E2) ->
  Forall (fun e => e <= y) E1 ->
  Forall (fun s => z <= s) S2 ->
  y <= z ->
  (length E1 <= length S1)%nat
  /\ (length E1 = length S1 ->
      forall p, In p l -> snd p <= y \/ z <= fst p).
Proof.
  intros Hlt HS HE HE1 HS2 Hyz.
  set (fA := fun p : Z * Z => snd p <=? y).
  set (fB := fun p : Z * Z => fst p <? z).
  assert (HA : (length E1 <= length (filter fA l))%nat).
  { unfold fA. rewrite <- (filter_count_map snd (fun e => e <=? y)).
    rewrite (filter_count_perm _ _ _ HE), filter_app, length_app.
    rewrite (filter_count_all (fun e => e <=? y) E1); [lia|].
    eapply Forall_impl; [|exact HE1]. intros a Ha. simpl in Ha. lia. }
  assert (HB : (length (filter fB l) <= length S1)%nat).
  { unfold fB. rewrite <- (filter_count_map fst (fun s => s <? z)).
    rewrite (filter_count_perm _ _ _ HS), filter_app, length_app.
    rewrite (filter_count_none (fun s => s <? z) S2).
    - pose proof (filter_length_le (fun s => s <? z) S1). lia.
    - eapply Forall_impl; [|exact HS2]. intros a Ha. simpl in Ha. lia. }
  destruct (filter_count_mono fA fB l) as [Hle Heq].
  { intros p Hin Hp. unfold fA, fB in *.
    rewrite Forall_forall in Hlt. specialize (Hlt p Hin). lia. }
  split; [lia|].
  intros Hlen p Hin.
  destruct (fst p <? z) eqn:E; [|right; lia].
  left. assert (Hp : fA p = true) by (apply Heq; [lia|exact Hin|exact E]).
  unfold fA in Hp. lia.
Qed.

Lemma map_fst_combine {A B : Type} (a : list A) (b : list B) :
  length a = length b -> map fst (combine a b) = a.
Proof.
  revert b. induction a as [|x a IH]; intros [|y b] H; simpl in *;
    try discriminate; [reflexivity|].
  f_equal. apply IH. congruence.
Qed.

Lemma map_snd_combine {A B : Type} (a : list A) (b : list B) :
  length a = length b -> map snd (combine a b) = b.
Proof.
  revert b. induction a as [|x a IH]; intros [|y b] H; simpl in *;
    try discriminate; [reflexivity|].
  f_equal. apply IH. congruence.
Qed.

Lemma sort_dim0_fst (l : list (Z * Z)) :
  map fst (sort_dim0 l) = sort_col (map fst l).
Proof.
  unfold sort_dim0. apply map_fst_combine.
  rewrite !sort_col_length, !length_map. reflexivity.
Qed.

Lemma sort_dim0_snd (l : list (Z * Z)) :
  map snd (sort_dim0 l) = sort_col (map snd l).
Proof.
  unfold sort_dim0. apply map_snd_combine.
  rewrite !sort_col_length, !length_map. reflexivity.
Qed.

Lemma sorted_app_inv (l1 l2 : list Z) :
  StronglySorted Z.le (l1 ++ l2) ->
  forall a b, In a l1 -> In b l2 -> a <= b.
Proof.
  induction l1 as [|x tl IH]; simpl; intros Hs a b Ha Hb; [contradiction|].
  inversion Hs as [|? ? Hs' Hall]; subst.
  destruct Ha as [Ha|Ha].
  - subst. rewrite Forall_forall in Hall. apply Hall.
    apply in_or_app. right. exact Hb.
  - apply IH; assumption.
Qed.

(** A cut of the sorted pairs between [z1] and [z2] that separates the
    ends on the left from the starts on the right separates the input. *)
Lemma cut_keeps_ranges_whole (l z1 z2 : list (Z * Z)) (y z : Z) :
  Forall (fun p => fst p < snd p) l ->
  sort_dim0 l = z1 ++ z2 ->
  Forall (fun p => snd p <= y) z1 ->
  Forall (fun p => z <= fst p) z2 ->
  y <= z ->
  forall p, In p l -> snd p <= y \/ z <= fst p.
Proof.
  intros Hlt Hz H1 H2 Hyz.
  apply (count_core l (map fst z1) (map fst z2) (map snd z1) (map snd z2) y z);
    try assumption.
  - rewrite <- map_app, <- Hz, sort_dim0_fst. apply sort_col_perm.
  - rewrite <- map_app, <- Hz, sort_dim0_snd. apply sort_col_perm.
  - apply Forall_map. exact H1.
  - apply Forall_map. exact H2.
  - rewrite !length_map. reflexivity.
Qed.

(** After the two columns are sorted, every row is still a range. *)
Lemma sort_dim0_rows_lt (l : list (Z * Z)) :
  Forall (fun p => fst p < snd p) l ->
  Forall (fun p => fst p < snd p) (sort_dim0 l).
Proof.
  intro Hlt. apply Forall_forall. intros [a b] Hin. simpl.
  destruct (in_split _ _ Hin) as [z1 [z2 Hz]].
  destruct (Z_lt_le_dec a b) as [Hab|Hba]; [exact Hab|exfalso].
  pose proof (sort_col_sorted (map fst l)) as HsS.
  pose proof (sort_col_sorted (map snd l)) as HsE.
  rewrite <- sort_dim0_fst, Hz, map_app in HsS.
  rewrite <- sort_dim0_snd, Hz, map_app in HsE. simpl in HsS, HsE.
  destruct (count_core l (map fst z1) (map fst ((a, b) :: z2))
              (map snd (z1 ++ [(a, b)])) (map snd z2) b b) as [Hle _];
    try assumption.
  - rewrite <- map_app, <- Hz, sort_dim0_fst. apply sort_col_perm.
  - rewrite <- map_app, <- app_assoc. simpl. rewrite <- Hz, sort_dim0_snd.
    apply sort_col_perm.
  - rewrite map_app. simpl. apply Forall_app. split.
    + apply Forall_forall. intros e He.
      apply (sorted_app_inv _ _ HsE e b He). left. reflexivity.
    + constructor; [lia|constructor].
  - simpl. constructor; [exact Hba|].
    apply Forall_forall. intros s0 Hs0.
    assert (a <= s0).
    { apply (sorted_app_inv (map fst z1 ++ [a]) (map fst z2)); 
        [rewrite <- app_assoc; exact HsS| |exact Hs0].
      apply in_or_app. right. left. reflexivity. }
    lia.
  - lia.
  - rewrite !length_map, length_app in Hle. simpl in Hle. lia.
Qed.

Lemma sort_dim0_split_le (l z1 z2 : list (Z * Z)) :
  sort_dim0 l = z1 ++ z2 ->
  forall p q, In p z1 -> In q z2 -> fst p <= fst q /\ snd p <= snd q.
Proof.
  intros Hz p q Hp Hq.
  pose proof (sort_col_sorted (map fst l)) as HsS.
  pose proof (sort_col_sorted (map snd l)) as HsE.
  rewrite <- sort_dim0_fst, Hz, map_app in HsS.
  rewrite <- sort_dim0_snd, Hz, map_app in HsE.
  split.
  - apply (sorted_app_inv _ _ HsS); apply in_map; assumption.
  - apply (sorted_app_inv _ _ HsE); apply in_map; assumption.
Qed.

(** *** The sweep *)

Lemma sweep_lower_bound (lb : Z) (rest : list (Z * Z)) :
  forall start end_,
    lb <= start ->
    Forall (fun p => lb <= fst p) rest ->
    Forall (fun o => lb <= fst o) (sweep start end_ rest).
Proof.
  induction rest as [|[stt2 end2] tl IH]; intros start end_ Hlb Hall; simpl.
  - constructor; [exact Hlb|constructor].
  - inversion Hall as [|? ? H2 Htl]; subst. simpl in H2.
    destruct (stt2 <=? end_).
    + apply IH; assumption.
    + constructor; [exact Hlb|]. apply IH; assumption.
Qed.

Lemma sweep_separated (rest : list (Z * Z)) :
  forall start end_,
    start < end_ ->
    Forall (fun p => fst p < snd p) rest ->
    StronglySorted Z.le (map fst rest) ->
    separated (sweep start end_ rest).
Proof.
  induction rest as [|[stt2 end2] tl IH]; intros start end_ Hse Hlt Hs; simpl.
  - split; repeat constructor. exact Hse.
  - inversion Hlt as [|? ? H2 Hlt']; subst. simpl in H2.
    simpl in Hs. inversion Hs as [|? ? Hs' Hall]; subst.
    destruct (stt2 <=? end_) eqn:E.
    + apply IH; [lia|exact Hlt'|exact Hs'].
    + destruct (IH stt2 (Z.max end2 end_)) as [Hsorted Hrows];
        [lia|exact Hlt'|exact Hs'|].
      split.
      * constructor; [exact Hsorted|].
        assert (Hlb : Forall (fun o => stt2 <= fst o)
                        (sweep stt2 (Z.max end2 end_) tl)).
        { apply sweep_lower_bound; [lia|].
          apply Forall_forall. intros q Hq. rewrite Forall_forall in Hall.
          apply Hall. apply in_map. exact Hq. }
        eapply Forall_impl; [|exact Hlb]. intros o Ho. simpl in *. lia.
      * constructor; [exact Hse|exact Hrows].
Qed.

Lemma sweep_cover (s e : Z) (rest : list (Z * Z)) :
  forall start end_,
    start <= s ->
    nocut s e end_ rest ->
    exists o, In o (sweep start end_ rest) /\ fst o <= s /\ e <= snd o.
Proof.
  induction rest as [|[stt2 end2] tl IH]; intros start end_ Hs Hn; simpl in *.
  - exists (start, end_). simpl. auto.
  - destruct Hn as [Hcut Hn].
    destruct (stt2 <=? end_) eqn:E.
    + apply IH; assumption.
    + destruct Hcut as [He|Hs2]; [lia| |].
      * exists (start, end_). simpl. auto.
      * destruct (IH stt2 (Z.max end2 end_) Hs2 Hn) as [o [Hin Ho]].
        exists o. split; [right; exact Hin|exact Ho].
Qed.

Lemma sweep_fixed (rest : list (Z * Z)) :
  forall start end_,
    separated ((start, end_) :: rest) ->
    sweep start end_ rest = (start, end_) :: rest.
Proof.
  induction rest as [|[stt2 end2] tl IH]; intros start end_ [Hs Hr]; simpl.
  - reflexivity.
  - inversion Hs as [|? ? Hs' Hall]; subst.
    inversion Hall as [|? ? H2 _]; subst. simpl in H2.
    inversion Hr as [|? ? _ Hr']; subst.
    inversion Hr' as [|? ? H3 _]; subst. simpl in H3.
    destruct (stt2 <=? end_) eqn:E; [lia|].
    replace (Z.max end2 end_) with end2 by lia.
    rewrite IH; [reflexivity|]. split; assumption.
Qed.

(** On the sorted pairs, the sweep cuts no input range. *)
Lemma nocut_sorted (l : list (Z * Z)) (s e : Z) :
  Forall (fun p => fst p < snd p) l ->
  In (s, e) l ->
  forall rest pre a b,
    sort_dim0 l = pre ++ (a, b) :: rest ->
    nocut s e b rest.
Proof.
  intros Hlt Hin.
  induction rest as [|[c d] tl IH]; intros pre a b Hz; simpl.
  - assert (He : In e (map snd (sort_dim0 l))).
    { rewrite sort_dim0_snd.
      apply (Permutation_in _ (sort_col_perm _)).
      apply (in_map snd _ _ Hin). }
    rewrite Hz, map_app in He. apply in_app_or in He.
    destruct He as [He|[He|[]]]; [|simpl in He; lia].
    apply in_map_iff in He. destruct He as [q [Hq Hqin]].
    destruct (sort_dim0_split_le l pre [(a, b)] Hz q (a, b) Hqin) as [_ H];
      [left; reflexivity|]. simpl in H. lia.
  - assert (Hz' : sort_dim0 l = (pre ++ [(a, b)]) ++ (c, d) :: tl)
      by (rewrite <- app_assoc; exact Hz).
    destruct (sort_dim0_split_le l _ _ Hz' (a, b) (c, d)) as [_ Hbd];
      [apply in_or_app; right; left; reflexivity|left; reflexivity|].
    simpl in Hbd. split.
    + intro Hbc.
      apply (cut_keeps_ranges_whole l _ _ b c Hlt Hz' ) with (p := (s, e));
        [| |lia|exact Hin].
      * apply Forall_forall. intros q Hq.
        apply in_app_or in Hq. destruct Hq as [Hq|[Hq|[]]].
        -- destruct (sort_dim0_split_le l pre ((a, b) :: (c, d) :: tl) Hz
                       q (a, b) Hq) as [_ H]; [left; reflexivity|exact H].
        -- subst. simpl. lia.
      * apply Forall_forall. intros q [Hq|Hq].
        -- subst. simpl. lia.
        -- destruct (sort_dim0_split_le l (pre ++ [(a, b); (c, d)]) tl)
             with (p := (c, d)) (q := q) as [H _].
           ++ rewrite <- app_assoc. exact Hz.
           ++ apply in_or_app. right. right. left. reflexivity.
           ++ exact Hq.
           ++ exact H.
    + replace (Z.max d b) with d by lia.
      apply (IH (pre ++ [(a, b)]) c d Hz').
Qed.

(** *** [merge_int_intervals] *)

Lemma merge_int_intervals_sweep (l : list (Z * Z)) :
  (2 <= length l)%nat ->
  exists a b rest,
    sort_dim0 l = (a, b) :: rest
    /\ merge_int_intervals l = sweep a b rest.
Proof.
  intro Hlen.
  assert (Hl : length (sort_dim0 l) = length l).
  { rewrite <- (length_map fst), sort_dim0_fst, sort_col_length, length_map.
    reflexivity. }
  destruct l as [|x [|y l']]; simpl in Hlen; try lia.
  destruct (sort_dim0 (x :: y :: l')) as [|[a b] rest] eqn:E.
  - simpl in Hl. discriminate.
  - exists a, b, rest. split; [reflexivity|].
    unfold merge_int_intervals. rewrite E. reflexivity.
Qed.

Lemma merge_int_intervals_separated (l : list (Z * Z)) :
  Forall (fun p => fst p < snd p) l ->
  separated (merge_int_intervals l).
Proof.
  intro Hlt.
  destruct l as [|x [|y l']].
  - split; constructor.
  - simpl. split; [repeat constructor|exact Hlt].
  - destruct (merge_int_intervals_sweep (x :: y :: l')) as [a [b [rest [Hz Hm]]]];
      [simpl; lia|].
    rewrite Hm.
    pose proof (sort_dim0_rows_lt _ Hlt) as Hrows. rewrite Hz in Hrows.
    inversion Hrows as [|? ? Hab Hrest]; subst.
    pose proof (sort_col_sorted (map fst (x :: y :: l'))) as Hs.
    rewrite <- sort_dim0_fst, Hz in Hs. simpl in Hs.
    inversion Hs; subst.
    apply sweep_separated; assumption.
Qed.

Lemma merge_int_intervals_cover (l : list (Z * Z)) (s e : Z) :
  Forall (fun p => fst p < snd p) l ->
  In (s, e) l ->
  exists o, In o (merge_int_intervals l) /\ fst o <= s /\ e <= snd o.
Proof.
  intros Hlt Hin.
  destruct l as [|x [|y l']].
  - contradiction.
  - destruct Hin as [Hx|[]]. subst. exists (s, e). simpl. split; [auto|lia].
  - destruct (merge_int_intervals_sweep (x :: y :: l')) as [a [b [rest [Hz Hm]]]];
      [simpl; lia|].
    rewrite Hm. apply sweep_cover.
    + assert (Hs : In s (map fst (sort_dim0 (x :: y :: l')))).
      { rewrite sort_dim0_fst.
        apply (Permutation_in _ (sort_col_perm _)).
        apply (in_map fst _ _ Hin). }
      rewrite Hz in Hs. simpl in Hs. destruct Hs as [Hs|Hs]; [lia|].
      apply in_map_iff in Hs. destruct Hs as [q [Hq Hqin]].
      destruct (sort_dim0_split_le _ [(a, b)] rest Hz (a, b) q) as [H _];
        [left; reflexivity|exact Hqin|]. simpl in H. lia.
    + apply (nocut_sorted _ s e Hlt Hin rest [] a b). exact Hz.
Qed.

Lemma separated_sorted_cols (l : list (Z * Z)) :
  separated l ->
  StronglySorted Z.le (map fst l) /\ StronglySorted Z.le (map snd l).
Proof.
  intros [Hs Hr]. induction Hs as [|p tl Hs IH Hall]; simpl.
  - split; constructor.
  - inversion Hr as [|? ? Hp Hr']; subst.
    destruct (IH Hr') as [IH1 IH2].
    split; (constructor; [assumption|]); apply Forall_map;
      rewrite Forall_forall in *; intros q Hq;
      specialize (Hall q Hq); specialize (Hr' q Hq); simpl in *; lia.
Qed.

Lemma combine_fst_snd {A B : Type} (l : list (A * B)) :
  combine (map fst l) (map snd l) = l.
Proof.
  induction l as [|[a b] tl IH]; simpl; [reflexivity|]. rewrite IH. reflexivity.
Qed.

Lemma merge_int_intervals_fixed (l : list (Z * Z)) :
  separated l -> merge_int_intervals l = l.
Proof.
  intro Hsep.
  destruct l as [|x [|y l']]; try reflexivity.
  destruct (separated_sorted_cols _ Hsep) as [H1 H2].
  unfold merge_int_intervals, sort_dim0.
  rewrite (sort_col_id _ H1), (sort_col_id _ H2), combine_fst_snd.
  destruct x as [a b]. apply sweep_fixed. exact Hsep.
Qed.

(** *** [merge_float_intervals] *)

Lemma ranges_to_int_rows (ranges : list interval) (d : nat) (m : Z) :
  Forall (fun p => fst p < snd p) (ranges_to_int ranges d m).
Proof.
  apply Forall_forall. intros p Hp. unfold ranges_to_int in Hp.
  apply filter_In in Hp. destruct Hp as [_ Hp]. lia.
Qed.

(** C7: [merge_float_intervals] with the default arguments is not
    idempotent on [[129, 130.00001], [130, 131]]: the end 13000001 of the
    first range comes back from [int2fl] as the float32 number
    130.0000152587890625, which [fl2int] takes to 13000002, so the second
    merge joins the two ranges that the first one kept apart. *)
Theorem merge_float_intervals_second_merge_differs :
  let X := [(129, py_float (13000001 # 100000)); (130, 131)]%Q in
  merge_float_intervals X default_decimals default_margin
  = [(129, 8519681 # 65536); (130, 131)]%Q
  /\ merge_float_intervals
       (merge_float_intervals X default_decimals default_margin)
       default_decimals default_margin
     = [(129, 131)]%Q.
Proof. split; vm_compute; reflexivity. Qed.


(** Ranges that overlap by less than the margin stay apart: the point
    1 + 2^-18 lies in both output ranges of [0, 1.00001] and [1, 2]. *)
Remark overlap_below_margin_covered_twice :
  merge_float_intervals [(0, py_float (100001 # 100000)); (1, 2)]%Q
                        default_decimals default_margin
  = [(0, 2097173 # 2097152); (1, 2)]%Q
  /\ covers (0, 2097173 # 2097152)%Q (262145 # 262144)
  /\ covers (1, 2)%Q (262145 # 262144).
Proof.
  split; [vm_compute; reflexivity|].
  unfold covers, Qle; simpl. lia.
Qed.

(** A range of 0.2 ms at 9000 s is longer than the margin of 0.02 ms, but
    float32 has a spacing of about 1 ms there: both bounds go to the same
    integer and the range is dropped. *)
Remark float32_spacing_drops_range :
  merge_float_intervals
    [(py_float (90000001 # 10000), py_float (90000003 # 10000))]%Q
    default_decimals default_margin
  = [].
Proof. vm_compute. reflexivity. Qed.



End MergeProperties.

(** * Further properties of the interval algebra *)

Section IntervalAlgebra.

Import Intervals.

Lemma Qleb_le (a b : Q) : Qleb a b = true <-> (a <= b)%Q.
Proof. unfold Qleb. apply Qle_bool_iff. Qed.

Lemma Qltb_lt (a b : Q) : Qltb a b = true <-> (a < b)%Q.
Proof.
  unfold Qltb. rewrite negb_true_iff. split; intro H.
  - apply Qnot_le_lt. intro Hle. apply Qle_bool_iff in Hle. congruence.
  - destruct (Qle_bool b a) eqn:E; [|reflexivity].
    apply Qle_bool_iff in E. exfalso. exact (Qlt_not_le _ _ H E).
Qed.

Lemma Qltb_ge (a b : Q) : Qltb a b = false <-> (b <= a)%Q.
Proof.
  unfold Qltb. rewrite negb_false_iff. apply Qle_bool_iff.
Qed.

Lemma Qleb_gt (a b : Q) : Qleb a b = false <-> (b < a)%Q.
Proof.
  rewrite <- Qltb_lt. unfold Qltb, Qleb.
  destruct (Qle_bool a b); simpl; split; congruence.
Qed.

Lemma Qmax'_bounds (a b : Q) : (a <= Qmax' a b /\ b <= Qmax' a b)%Q.
Proof.
  unfold Qmax'. destruct (Qltb a b) eqn:E.
  - apply Qltb_lt in E. split; lra.
  - apply Qltb_ge in E. split; lra.
Qed.

Lemma Qmin'_bounds (a b : Q) : (Qmin' a b <= a /\ Qmin' a b <= b)%Q.
Proof.
  unfold Qmin'. destruct (Qleb a b) eqn:E.
  - apply Qleb_le in E. split; lra.
  - apply Qleb_gt in E. split; lra.
Qed.

(** X1: [get_sub_range_list] never raises (the assertion of
    [get_overlap_range] is guarded by [is_overlap]), and every range it
    returns lies inside the target range and inside one of the source
    ranges. *)
Theorem get_sub_range_list_contained :
  forall (t : interval) (sources : list interval),
  exists out,
    get_sub_range_list (Some t) sources = Ok out
    /\ forall o, In o out ->
         (fst t <= fst o /\ snd o <= snd t)%Q
         /\ exists s, In s sources /\ (fst s <= fst o /\ snd o <= snd s)%Q.
Proof.
  intros t sources. induction sources as [|s rest [out [Hout Hall]]].
  - exists []. split; [reflexivity|]. intros o [].
  - simpl. unfold get_overlap_range.
    destruct (is_overlap s t) eqn:E.
    + rewrite Hout. simpl.
      exists ((Qmax' (fst s) (fst t), Qmin' (snd s) (snd t)) :: out).
      split; [reflexivity|]. intros o [Ho|Ho].
      * subst o. simpl.
        pose proof (Qmax'_bounds (fst s) (fst t)).
        pose proof (Qmin'_bounds (snd s) (snd t)).
        split; [tauto|]. exists s. split; [left; reflexivity|tauto].
      * destruct (Hall o Ho) as [Ht [s' [Hs' Hb]]].
        split; [exact Ht|]. exists s'. split; [right; exact Hs'|exact Hb].
    + exists out. split; [exact Hout|]. intros o Ho.
      destruct (Hall o Ho) as [Ht [s' [Hs' Hb]]].
      split; [exact Ht|]. exists s'. split; [right; exact Hs'|exact Hb].
Qed.

(** X2: every range returned by [get_sub_range_list] for proper source
    and target ranges (start < end) is itself proper: no empty or
    inverted range is produced. *)
Theorem get_sub_range_list_proper :
  forall (t : interval) (sources out : list interval),
    (fst t < snd t)%Q ->
    Forall (fun s => (fst s < snd s)%Q) sources ->
    get_sub_range_list (Some t) sources = Ok out ->
    Forall (fun o => (fst o < snd o)%Q) out.
Proof.
  intros t sources. induction sources as [|s rest IH]; intros out Ht Hs Hout.
  - simpl in Hout. inversion Hout. constructor.
  - inversion Hs as [|? ? Hs1 Hs2]; subst. simpl in Hout.
    unfold get_overlap_range in Hout.
    destruct (is_overlap s t) eqn:E.
    + destruct (get_sub_range_list (Some t) rest) as [out'|e] eqn:E';
        simpl in Hout; [|discriminate].
      inversion Hout; subst. constructor; [|apply IH; auto].
      simpl. unfold is_overlap in E. destruct s as [s1 s2], t as [t1 t2].
      simpl in *. apply andb_true_iff in E. destruct E as [E1 E2].
      apply Qltb_lt in E1, E2.
      unfold Qmax', Qmin'.
      destruct (Qltb s1 t1) eqn:M, (Qleb s2 t2) eqn:N; lra.
    + apply IH; assumption.
Qed.

Lemma get_sub_range_list_proper_witness :
  Forall (fun o => (fst o < snd o)%Q) [(1, 2); (3, 4)]%Q.
Proof.
  apply (get_sub_range_list_proper (1, 4)%Q [(0, 2); (3, 5); (6, 7)]%Q).
  - reflexivity.
  - repeat constructor.
  - vm_compute. reflexivity.
Defined.

End IntervalAlgebra.

Section MergeFurther.

Import Intervals.

(** X3: on ranges with start < end, the output of [merge_int_intervals] is
    in ascending order, every range ends strictly before the next one
    starts, and no range is empty. *)
Theorem merge_int_intervals_sorted_disjoint :
  forall l : list (Z * Z),
    Forall (fun p => fst p < snd p) l ->
    StronglySorted (fun p q => snd p < fst q) (merge_int_intervals l)
    /\ Forall (fun p => fst p < snd p) (merge_int_intervals l).
Proof. intros l H. exact (merge_int_intervals_separated l H). Qed.

Lemma merge_int_intervals_sorted_disjoint_witness :
  StronglySorted (fun p q => snd p < fst q)
    (merge_int_intervals [(107, 120); (102, 103); (104, 109)])
  /\ Forall (fun p => fst p < snd p)
       (merge_int_intervals [(107, 120); (102, 103); (104, 109)]).
Proof.
  apply (merge_int_intervals_sorted_disjoint
           [(107, 120); (102, 103); (104, 109)]).
  repeat constructor.
Defined.

(** X4: on ranges with start < end, every input range of
    [merge_int_intervals] is contained in one range of the output, although
    the two columns are sorted independently of each other. *)
Theorem merge_int_intervals_contains_inputs :
  forall (l : list (Z * Z)) (s e : Z),
    Forall (fun p => fst p < snd p) l ->
    In (s, e) l ->
    exists o, In o (merge_int_intervals l) /\ fst o <= s /\ e <= snd o.
Proof. intros l s e H Hin. exact (merge_int_intervals_cover l s e H Hin). Qed.

Lemma merge_int_intervals_contains_inputs_witness :
  exists o,
    In o (merge_int_intervals [(1, 10); (2, 3); (20, 30)])
    /\ fst o <= 2 /\ 3 <= snd o.
Proof.
  apply (merge_int_intervals_contains_inputs [(1, 10); (2, 3); (20, 30)] 2 3).
  - repeat constructor.
  - right. left. reflexivity.
Defined.

Lemma sweep_endpoints (rest : list (Z * Z)) :
  forall start end_ o,
    In o (sweep start end_ rest) ->
    In (fst o) (start :: map fst rest) /\ In (snd o) (end_ :: map snd rest).
Proof.
  induction rest as [|[stt2 end2] tl IH]; intros start end_ o Hin; simpl in *.
  - destruct Hin as [Ho|[]]. subst. simpl. auto.
  - assert (Hmax : Z.max end2 end_ = end2 \/ Z.max end2 end_ = end_) by lia.
    destruct (stt2 <=? end_).
    + destruct (IH _ _ _ Hin) as [H1 H2]. simpl in H1, H2. split.
      * destruct H1 as [H1|H1]; auto.
      * destruct H2 as [H2|H2]; [|auto]. destruct Hmax as [M|M]; rewrite M in H2; auto.
    + destruct Hin as [Ho|Hin].
      * subst. simpl. auto.
      * destruct (IH _ _ _ Hin) as [H1 H2]. simpl in H1, H2. split.
        -- destruct H1 as [H1|H1]; auto.
        -- destruct H2 as [H2|H2]; [|auto].
           destruct Hmax as [M|M]; rewrite M in H2; auto.
Qed.

(** X5: [merge_int_intervals] invents no bound: the start of every output
    range is the start of an input range and its end is the end of an input
    range. *)
Theorem merge_int_intervals_bounds_from_input :
  forall (l : list (Z * Z)) (o : Z * Z),
    In o (merge_int_intervals l) ->
    In (fst o) (map fst l) /\ In (snd o) (map snd l).
Proof.
  intros l o Hin.
  destruct l as [|x [|y l']].
  - contradiction.
  - destruct Hin as [Ho|[]]. subst. simpl. auto.
  - destruct (merge_int_intervals_sweep (x :: y :: l'))
      as [a [b [rest [Hz Hm]]]]; [simpl; lia|].
    rewrite Hm in Hin. apply sweep_endpoints in Hin.
    destruct Hin as [H1 H2].
    change (a :: map fst rest) with (map fst ((a, b) :: rest)) in H1.
    change (b :: map snd rest) with (map snd ((a, b) :: rest)) in H2.
    rewrite <- Hz in H1, H2.
    rewrite sort_dim0_fst in H1. rewrite sort_dim0_snd in H2. split.
    + apply (Permutation_in _ (Permutation_sym (sort_col_perm _)) H1).
    + apply (Permutation_in _ (Permutation_sym (sort_col_perm _)) H2).
Qed.

Lemma merge_int_intervals_bounds_from_input_witness :
  In (fst (1, 10)) (map fst [(1, 10); (2, 3); (20, 30)])
  /\ In (snd (1, 10)) (map snd [(1, 10); (2, 3); (20, 30)]).
Proof.
  apply (merge_int_intervals_bounds_from_input
           [(1, 10); (2, 3); (20, 30)] (1, 10)).
  vm_compute. left. reflexivity.
Defined.

Lemma insert_sorted_comm (x y : Z) (l : list Z) :
  insert_sorted x (insert_sorted y l) = insert_sorted y (insert_sorted x l).
Proof.
  induction l as [|z tl IH]; simpl.
  - destruct (x <=? y) eqn:A, (y <=? x) eqn:B; try reflexivity; try lia.
    f_equal; [lia|f_equal; lia].
  - destruct (y <=? z) eqn:A, (x <=? z) eqn:B; simpl;
      repeat match goal with
             | |- context [?u <=? ?v] => destruct (u <=? v) eqn:?
             end; try reflexivity; try lia.
    + f_equal; [lia|f_equal; lia].
    + rewrite IH. reflexivity.
Qed.

Lemma sort_col_perm_eq (l l' : list Z) :
  Permutation l l' -> sort_col l = sort_col l'.
Proof.
  induction 1; simpl.
  - reflexivity.
  - congruence.
  - apply insert_sorted_comm.
  - congruence.
Qed.

(** X6: the result of [merge_int_intervals] does not depend on the order
    of the input ranges. *)
Theorem merge_int_intervals_order_independent :
  forall l l' : list (Z * Z),
    Permutation l l' -> merge_int_intervals l = merge_int_intervals l'.
Proof.
  intros l l' Hp.
  pose proof (Permutation_length Hp) as Hlen.
  assert (Hs : sort_dim0 l = sort_dim0 l').
  { unfold sort_dim0.
    rewrite (sort_col_perm_eq _ _ (Permutation_map fst Hp)).
    rewrite (sort_col_perm_eq _ _ (Permutation_map snd Hp)). reflexivity. }
  destruct l as [|x [|y t]].
  - apply Permutation_nil in Hp. subst. reflexivity.
  - apply Permutation_length_1_inv in Hp. subst. reflexivity.
  - destruct l' as [|x' [|y' t']]; simpl in Hlen; try discriminate.
    unfold merge_int_intervals. rewrite Hs. reflexivity.
Qed.

Lemma merge_int_intervals_order_independent_witness :
  merge_int_intervals [(1, 10); (2, 3); (20, 30)]
  = merge_int_intervals [(2, 3); (1, 10); (20, 30)].
Proof.
  apply (merge_int_intervals_order_independent
           [(1, 10); (2, 3); (20, 30)] [(2, 3); (1, 10); (20, 30)]).
  apply perm_swap.
Defined.

(** X9: on ranges with start < end, [merge_int_intervals] is idempotent:
    merging its output again returns it unchanged. *)
Theorem merge_int_intervals_idempotent :
  forall l : list (Z * Z),
    Forall (fun p => fst p < snd p) l ->
    merge_int_intervals (merge_int_intervals l) = merge_int_intervals l.
Proof.
  intros l H. apply merge_int_intervals_fixed.
  apply merge_int_intervals_separated. exact H.
Qed.

Lemma merge_int_intervals_idempotent_witness :
  merge_int_intervals (merge_int_intervals [(5, 9); (1, 3); (2, 4)])
  = merge_int_intervals [(5, 9); (1, 3); (2, 4)].
Proof.
  apply (merge_int_intervals_idempotent [(5, 9); (1, 3); (2, 4)]).
  repeat constructor.
Defined.

Lemma merge_float_margin0_ordered :
  forall ranges : list interval,
    StronglySorted (fun p q => (snd p <= fst q)%Q)
      (merge_float_intervals ranges default_decimals 0)
    /\ Forall (fun p => (fst p <= snd p)%Q)
         (merge_float_intervals ranges default_decimals 0).
Proof.
  intros ranges. unfold merge_float_intervals.
  destruct (merge_int_intervals_separated _
              (ranges_to_int_rows ranges default_decimals 0)) as [Hs Hr].
  induction Hs as [|p tl Hs IH Hall]; simpl.
  - split; constructor.
  - inversion Hr as [|? ? Hp Hr']; subst.
    destruct (IH Hr') as [IH1 IH2]. split.
    + constructor; [exact IH1|]. apply Forall_map.
      eapply Forall_impl; [|exact Hall]. intros q Hq. simpl in *.
      apply int2fl_mono. lia.
    + constructor; [|exact IH2]. simpl. apply int2fl_mono. lia.
Qed.

(** X10: with margin 0 and the default 5 decimals, the output of
    [merge_float_intervals] is in ascending order: no range starts after
    its end, and each ends at or before the start of the next one (two
    ranges may touch, since [int2fl] can map two integers to the same
    float32 number). *)
Theorem merge_float_intervals_margin0_ordered :
  forall ranges : list interval,
    StronglySorted (fun p q => (snd p <= fst q)%Q)
      (merge_float_intervals ranges default_decimals 0)
    /\ Forall (fun p => (fst p <= snd p)%Q)
         (merge_float_intervals ranges default_decimals 0).
Proof. intros. apply merge_float_margin0_ordered. Qed.

End MergeFurther.

(** * Further properties of the segment layout *)

Section SegmentLayout.

Import Subsegments.

Lemma Qeqb_false_pos (s : Q) : (0 < s)%Q -> Qeqb s 0 = false.
Proof.
  intro H. unfold Qeqb. destruct (Qeq_bool s 0) eqn:E; [|reflexivity].
  apply Qeq_bool_iff in E. lra.
Qed.

Lemma get_subsegments_short_raises :
  forall (offset window shift duration min_dur : Q) (decimals : nat),
    (0 < shift)%Q ->
    (duration <= window - shift)%Q ->
    ~ (min_dur <= duration /\ duration < shift)%Q ->
    raises (get_subsegments offset window shift duration min_dur decimals).
Proof.
  intros offset w s d m dec Hs Hd Hband.
  unfold get_subsegments, num_slices.
  assert (Hb : Qleb m d && Qltb d s = false).
  { apply not_true_is_false. intro H. apply andb_true_iff in H.
    destruct H as [H1 H2]. apply Qleb_le in H1. apply Qltb_lt in H2. tauto. }
  rewrite Hb, (Qeqb_false_pos s Hs). simpl.
  assert (Hc : Qceiling ((d - w) / s) <= -1).
  { rewrite <- (Qceiling_Z (-1)). apply Qceiling_resp_le.
    apply Qle_shift_div_r; [exact Hs|]. unfold inject_Z. lra. }
  destruct (Qceiling ((d - w) / s) + 1 =? 1) eqn:E1; [lia|].
  unfold arange. rewrite (Qeqb_false_pos s Hs).
  destruct ((Qltb 0 s && Qltb (offset + d) offset)
            || (Qltb s 0 && Qltb offset (offset + d))) eqn:E2.
  - eexists. reflexivity.
  - simpl. unfold ones.
    destruct (Qceiling ((d - w) / s) + 1 <? 0) eqn:E3.
    + eexists. reflexivity.
    + assert (E0 : Qceiling ((d - w) / s) + 1 = 0) by lia.
      rewrite E0. simpl. eexists. reflexivity.
Qed.

(** X11: for a positive shift, [get_subsegments] raises on every segment
    whose duration is at most [window - shift], unless the duration falls
    in the single-slice band [min_subsegment_duration <= duration < shift];
    the computed slice count is then zero or negative. *)
Theorem get_subsegments_raises_on_short_segments :
  forall (offset window shift duration min_dur : Q) (decimals : nat),
    (0 < shift)%Q ->
    (duration <= window - shift)%Q ->
    ~ (min_dur <= duration /\ duration < shift)%Q ->
    raises (get_subsegments offset window shift duration min_dur decimals).
Proof. intros. apply get_subsegments_short_raises; assumption. Qed.

Lemma get_subsegments_raises_on_short_segments_witness :
  raises (get_subsegments 0 (3 # 2) (3 # 4) (1 # 100) (3 # 100) 2).
Proof.
  apply (get_subsegments_raises_on_short_segments
           0 (3 # 2) (3 # 4) (1 # 100) (3 # 100) 2).
  - reflexivity.
  - unfold Qle. simpl. lia.
  - intros [H _]. unfold Qle in H. simpl in H. lia.
Defined.

End SegmentLayout.

(** * Further properties of the online segmentor *)

Section OnlineCursor.

Import Intervals Online.

Lemma cursor_loop_all (frame_start : Q) (rev_ranges : list interval) :
  Forall (fun r => (frame_start <= snd r)%Q) rev_ranges ->
  forall c n, cursor_loop frame_start rev_ranges c n = Raise IndexError.
Proof.
  induction 1 as [|r tl Hr _ IH]; intros c n; simpl; [reflexivity|].
  apply Qleb_le in Hr. rewrite Hr. apply IH.
Qed.

(** X15: when every previous segment ends at or after [frame_start] (and
    there is at least one), the loop of [get_new_cursor_for_update] walks
    past the front of the list and the call raises IndexError. *)
Theorem get_new_cursor_for_update_raises_when_all_overlap :
  forall (frame_start : Q) (segment_range_ts : list interval),
    segment_range_ts <> [] ->
    Forall (fun r => (frame_start <= snd r)%Q) segment_range_ts ->
    get_new_cursor_for_update frame_start segment_range_ts = Raise IndexError.
Proof.
  intros fs l Hne Hall. unfold get_new_cursor_for_update.
  destruct l as [|x tl]; [contradiction|].
  rewrite cursor_loop_all; [reflexivity|].
  apply Forall_rev. exact Hall.
Qed.

Lemma get_new_cursor_for_update_raises_when_all_overlap_witness :
  get_new_cursor_for_update 3 [(0, 5)]%Q = Raise IndexError.
Proof.
  apply (get_new_cursor_for_update_raises_when_all_overlap 3 [(0, 5)]%Q).
  - discriminate.
  - constructor; [|constructor]. unfold Qle. simpl. lia.
Defined.

Lemma cursor_loop_ok (frame_start : Q) (rev_ranges : list interval) :
  forall c0 n0 c k,
    cursor_loop frame_start rev_ranges c0 n0 = Ok (c, k) ->
    exists pre r post,
      rev_ranges = pre ++ r :: post
      /\ Forall (fun x => (frame_start <= snd x)%Q) pre
      /\ (snd r < frame_start)%Q
      /\ k = (n0 + length pre)%nat
      /\ c = match rev pre with
             | [] => c0
             | x :: _ => fst x
             end.
Proof.
  induction rev_ranges as [|t tl IH]; intros c0 n0 c k H; simpl in H.
  - discriminate.
  - destruct (Qleb frame_start (snd t)) eqn:E.
    + destruct (IH _ _ _ _ H) as [pre [r [post [Hl [Hall [Hr [Hk Hc]]]]]]].
      exists (t :: pre), r, post. subst tl. repeat split.
      * constructor; [apply Qleb_le; exact E|exact Hall].
      * exact Hr.
      * simpl. lia.
      * simpl. destruct (rev pre) as [|x xs] eqn:Ep; simpl; exact Hc.
    + inversion H; subst. exists [], t, tl. repeat split.
      * constructor.
      * apply Qleb_gt. exact E.
      * simpl. lia.
Qed.

(** X16: when [get_new_cursor_for_update] returns [(cursor, index)], the
    list splits at [index] into the segments that are kept and those that
    are dropped: every dropped segment ends at or after [frame_start], the
    last kept segment ends before it, and the cursor is the start of the
    first dropped segment ([frame_start] when nothing is dropped). *)
Theorem get_new_cursor_for_update_split :
  forall (frame_start : Q) (segment_range_ts : list interval)
         (cursor : Q) (index : nat),
    get_new_cursor_for_update frame_start segment_range_ts
    = Ok (cursor, index) ->
    exists kept dropped,
      segment_range_ts = kept ++ dropped
      /\ index = length kept
      /\ Forall (fun r => (frame_start <= snd r)%Q) dropped
      /\ (forall k r, kept = k ++ [r] -> (snd r < frame_start)%Q)
      /\ cursor = match dropped with
                  | [] => frame_start
                  | r :: _ => fst r
                  end.
Proof.
  intros fs l c i H. unfold get_new_cursor_for_update in H.
  destruct l as [|x tl] eqn:El.
  - inversion H; subst. exists [], []. repeat split; try constructor.
    intros k r Hk. destruct k; discriminate.
  - rewrite <- El in *.
    destruct (cursor_loop fs (rev l) fs 0) as [[c' k']|e] eqn:E;
      simpl in H; [|discriminate].
    inversion H; subst c i.
    destruct (cursor_loop_ok _ _ _ _ _ _ E)
      as [pre [r [post [Hl [Hall [Hr [Hk Hc]]]]]]].
    assert (Hl' : l = (rev post ++ [r]) ++ rev pre).
    { rewrite <- (rev_involutive l), Hl, rev_app_distr. simpl.
      rewrite <- app_assoc. reflexivity. }
    exists (rev post ++ [r]), (rev pre). split; [exact Hl'|].
    split.
    { pose proof (f_equal (@length interval) Hl') as Hlen.
      rewrite length_app, (length_rev pre) in Hlen. subst k'. simpl. lia. }
    split; [apply Forall_rev; exact Hall|].
    split.
    { intros k r0 Hk0. apply app_inj_tail in Hk0. destruct Hk0 as [_ Hr0].
      subst r0. exact Hr. }
    exact Hc.
Qed.

Lemma get_new_cursor_for_update_split_witness :
  exists kept dropped,
    [(0, 1); (2, 5)]%Q = kept ++ dropped
    /\ 1%nat = length kept
    /\ Forall (fun r => (3 <= snd r)%Q) dropped
    /\ (forall k r, kept = k ++ [r] -> (snd r < 3)%Q)
    /\ 2%Q = match dropped with
             | [] => 3%Q
             | r :: _ => fst r
             end.
Proof.
  apply (get_new_cursor_for_update_split 3 [(0, 1); (2, 5)]%Q 2 1).
  vm_compute. reflexivity.
Defined.

Lemma get_sub_range_list_returns (t : option interval)
  (sources : list interval) :
  returns (get_sub_range_list t sources).
Proof.
  destruct t as [t|].
  - induction sources as [|s rest [out Hout]]; simpl.
    + eexists. reflexivity.
    + unfold get_overlap_range. destruct (is_overlap s t).
      * rewrite Hout. simpl. eexists. reflexivity.
      * exists out. exact Hout.
  - destruct sources; eexists; reflexivity.
Qed.

Lemma get_speech_labels_for_update_returns
  (frame_start buffer_end : Q)
  (vad_timestamps cumulative_speech_labels : list interval)
  (cursor_for_old_segments : Q) :
  returns (get_speech_labels_for_update frame_start buffer_end vad_timestamps
             cumulative_speech_labels cursor_for_old_segments).
Proof.
  unfold get_speech_labels_for_update. cbv zeta.
  destruct (get_sub_range_list_returns (Some (frame_start, buffer_end))
              vad_timestamps) as [a Ha].
  rewrite Ha. cbn [bind].
  match goal with
  | |- context [bind (get_sub_range_list ?t ?c) _] =>
      destruct (get_sub_range_list_returns t c) as [b Hb]; rewrite Hb
  end.
  cbn [bind]. eexists. reflexivity.
Qed.

Lemma cursor_loop_raise (frame_start : Q) (rev_ranges : list interval) :
  forall c n e,
    cursor_loop frame_start rev_ranges c n = Raise e -> e = IndexError.
Proof.
  induction rev_ranges as [|t tl IH]; intros c n e H; simpl in H.
  - inversion H. reflexivity.
  - destruct (Qleb frame_start (snd t)); [|discriminate].
    eapply IH. exact H.
Qed.

Lemma get_new_cursor_for_update_raise (frame_start : Q)
  (segment_range_ts : list interval) (e : exception) :
  get_new_cursor_for_update frame_start segment_range_ts = Raise e ->
  e = IndexError.
Proof.
  unfold get_new_cursor_for_update. destruct segment_range_ts as [|x tl].
  - discriminate.
  - destruct (cursor_loop frame_start (rev (x :: tl)) frame_start 0)
      as [v|e'] eqn:E; simpl; intro H; [discriminate|].
    inversion H; subst. eapply cursor_loop_raise. exact E.
Qed.

(** X17: [get_speech_labels_for_update] never raises, and both lists it
    returns (the speech labels of the new segments and the cumulative
    labels) are in ascending order: no range starts after its end, and each
    ends at or before the start of the next one. *)
Theorem get_speech_labels_for_update_ordered :
  forall (frame_start buffer_end : Q)
         (vad_timestamps cumulative_speech_labels : list interval)
         (cursor_for_old_segments : Q),
  exists new_labels cumulative,
    get_speech_labels_for_update frame_start buffer_end vad_timestamps
      cumulative_speech_labels cursor_for_old_segments
    = Ok (new_labels, cumulative)
    /\ StronglySorted (fun p q => (snd p <= fst q)%Q) new_labels
    /\ Forall (fun p => (fst p <= snd p)%Q) new_labels
    /\ StronglySorted (fun p q => (snd p <= fst q)%Q) cumulative
    /\ Forall (fun p => (fst p <= snd p)%Q) cumulative.
Proof.
  intros fs be vad cum cur. unfold get_speech_labels_for_update. cbv zeta.
  destruct (get_sub_range_list_returns (Some (fs, be)) vad) as [a Ha].
  rewrite Ha. cbn [bind].
  match goal with
  | |- context [bind (get_sub_range_list ?t ?c) _] =>
      destruct (get_sub_range_list_returns t c) as [b Hb]; rewrite Hb
  end.
  cbn [bind].
  eexists. eexists. split; [reflexivity|].
  destruct (merge_float_margin0_ordered (b ++ a)).
  destruct (merge_float_margin0_ordered (cum ++ a)).
  auto.
Qed.

(** X18: when the three segment lists have equal lengths on entry,
    [run_online_segmentation] either raises the IndexError of the cursor
    search or reaches the collection of signals with three lists of equal
    length that are prefixes of the lists it was given. *)
Theorem run_online_segmentation_keeps_prefixes :
  forall (A : Type) (self : OnlineSegmentor) (vad_timestamps : list interval)
         (segment_raw_audio : list A) (segment_range_ts : list interval)
         (segment_indexes : list Z),
    length segment_raw_audio = length segment_range_ts ->
    length segment_range_ts = length segment_indexes ->
    run_online_segmentation self vad_timestamps segment_raw_audio
      segment_range_ts segment_indexes = Raise IndexError
    \/ exists u n,
         run_online_segmentation self vad_timestamps segment_raw_audio
           segment_range_ts segment_indexes = Ok u
         /\ kept_raw_audio u = firstn n segment_raw_audio
         /\ kept_range_ts u = firstn n segment_range_ts
         /\ kept_indexes u = firstn n segment_indexes
         /\ length (kept_raw_audio u) = length (kept_range_ts u)
         /\ length (kept_range_ts u) = length (kept_indexes u).
Proof.
  intros A self vad audio ranges idx H1 H2.
  assert (Hfull : forall u : update A,
             kept_raw_audio u = audio -> kept_range_ts u = ranges ->
             kept_indexes u = idx ->
             kept_raw_audio u = firstn (length audio) audio
             /\ kept_range_ts u = firstn (length audio) ranges
             /\ kept_indexes u = firstn (length audio) idx
             /\ length (kept_raw_audio u) = length (kept_range_ts u)
             /\ length (kept_range_ts u) = length (kept_indexes u)).
  { intros u Ea Er Ei. rewrite Ea, Er, Ei.
    repeat split; try assumption; symmetry; apply firstn_all2; lia. }
  assert (Hlater :
            (c <- get_new_cursor_for_update (frame_start self) ranges ;;
             let '(cursor_for_old_segments, cursor_index) := c in
             let segment_range_ts := firstn cursor_index ranges in
             let segment_raw_audio := firstn cursor_index audio in
             let segment_indexes := firstn cursor_index idx in
             if negb (Nat.eqb (length segment_raw_audio)
                              (length segment_range_ts)
                      && Nat.eqb (length segment_range_ts)
                                 (length segment_indexes))
             then Raise ValueError
             else
               r <- get_speech_labels_for_update (frame_start self)
                      (buffer_end self) (cumulative_speech_labels self)
                      vad cursor_for_old_segments ;;
               Ok (mkUpdate (set_cumulative self (snd r)) (fst r)
                            segment_raw_audio segment_range_ts
                            segment_indexes))
            = Raise IndexError
            \/ exists u n,
                (c <- get_new_cursor_for_update (frame_start self) ranges ;;
                 let '(cursor_for_old_segments, cursor_index) := c in
                 let segment_range_ts := firstn cursor_index ranges in
                 let segment_raw_audio := firstn cursor_index audio in
                 let segment_indexes := firstn cursor_index idx in
                 if negb (Nat.eqb (length segment_raw_audio)
                                  (length segment_range_ts)
                          && Nat.eqb (length segment_range_ts)
                                     (length segment_indexes))
                 then Raise ValueError
                 else
                   r <- get_speech_labels_for_update (frame_start self)
                          (buffer_end self) (cumulative_speech_labels self)
                          vad cursor_for_old_segments ;;
                   Ok (mkUpdate (set_cumulative self (snd r)) (fst r)
                                segment_raw_audio segment_range_ts
                                segment_indexes))
                = Ok u
                /\ kept_raw_audio u = firstn n audio
                /\ kept_range_ts u = firstn n ranges
                /\ kept_indexes u = firstn n idx
                /\ length (kept_raw_audio u) = length (kept_range_ts u)
                /\ length (kept_range_ts u) = length (kept_indexes u)).
  { destruct (get_new_cursor_for_update (frame_start self) ranges)
      as [[c i]|e] eqn:E.
    - right. simpl.
      assert (Hl1 : length (firstn i audio) = length (firstn i ranges))
        by (rewrite !length_firstn; lia).
      assert (Hl2 : length (firstn i ranges) = length (firstn i idx))
        by (rewrite !length_firstn; lia).
      rewrite Hl1, Hl2, !Nat.eqb_refl. simpl.
      destruct (get_speech_labels_for_update_returns
                  (frame_start self) (buffer_end self)
                  (cumulative_speech_labels self) vad c) as [r Hr].
      rewrite Hr. simpl. eexists. exists i.
      split; [reflexivity|]. simpl. auto.
    - left. simpl.
      rewrite (get_new_cursor_for_update_raise _ _ _ E). reflexivity. }
  unfold run_online_segmentation.
  destruct (Qleb 0 (buffer_start self)).
  - destruct audio as [|a0 atl].
    + destruct vad as [|[s0 e0] vtl].
      * exact Hlater.
      * right. eexists. exists (length (@nil A)).
        split; [reflexivity|]. apply Hfull; reflexivity.
    + exact Hlater.
  - right. eexists. exists (length audio).
    split; [reflexivity|]. apply Hfull; reflexivity.
Qed.

Lemma run_online_segmentation_keeps_prefixes_witness :
  run_online_segmentation running_segmentor [(5, 6)]%Q [tt] [(0, 1)]%Q [0]
  = Raise IndexError
  \/ exists u n,
       run_online_segmentation running_segmentor [(5, 6)]%Q [tt] [(0, 1)]%Q [0]
       = Ok u
       /\ kept_raw_audio u = firstn n [tt]
       /\ kept_range_ts u = firstn n [(0, 1)]%Q
       /\ kept_indexes u = firstn n [0]
       /\ length (kept_raw_audio u) = length (kept_range_ts u)
       /\ length (kept_range_ts u) = length (kept_indexes u).
Proof.
  apply (run_online_segmentation_keeps_prefixes unit running_segmentor
           [(5, 6)]%Q [tt] [(0, 1)]%Q [0]); reflexivity.
Defined.

End OnlineCursor.

Section OnlineBufferProperties.

Import Intervals OnlineBuffer.

(** X19: for a non-negative end time and sample rate, [get_target_sig]
    never returns more than [slice_length] samples, also when the start
    time is negative and the slice counts from the end of the buffer. *)
Theorem get_target_sig_length :
  forall (A : Type) (sig : list A) (start_sec end_sec : Q)
         (slice_length sample_rate : Z),
    0 <= slice_length ->
    0 <= sample_rate ->
    (0 <= end_sec)%Q ->
    Z.of_nat (length (get_target_sig sig start_sec end_sec slice_length
                                     sample_rate)) <= slice_length.
Proof.
  intros A sig st en sl sr Hsl Hsr Hen. unfold get_target_sig, pyslice.
  rewrite length_firstn.
  assert (HE : 0 <= Qtrunc (en * inject_Z sr)).
  { assert (Hx : (0 <= en * inject_Z sr)%Q).
    { apply Qmult_le_0_compat; [exact Hen|].
      change 0%Q with (inject_Z 0). rewrite <- Zle_Qle. exact Hsr. }
    unfold Qtrunc. apply Qleb_le in Hx. rewrite Hx.
    rewrite <- (Qfloor_Z 0). apply Qfloor_resp_le. apply Qleb_le. exact Hx. }
  set (a := Qtrunc (st * inject_Z sr)).
  set (E := Qtrunc (en * inject_Z sr)) in *.
  set (len := Z.of_nat (length sig)).
  assert (Hlen : 0 <= len) by (unfold len; lia).
  assert (H : norm_index len (Z.min E (sl + a)) - norm_index len a <= sl).
  { unfold norm_index.
    destruct (Z.min E (sl + a) <? 0) eqn:Eb, (a <? 0) eqn:Ea; lia. }
  lia.
Qed.

Lemma get_target_sig_length_witness :
  Z.of_nat (length (get_target_sig [1; 2; 3; 4; 5; 6] (1 # 2) 3 2 2)) <= 2.
Proof.
  apply (get_target_sig_length Z [1; 2; 3; 4; 5; 6] (1 # 2) 3 2 2).
  - lia.
  - lia.
  - unfold Qle. simpl. lia.
Defined.

Section WithBuffer.

Variable sample : Type.
Variable repeat_signal : list sample -> nat -> Z -> list sample.

Lemma consecutive_cons (first : Z) (n : nat) :
  consecutive first (S n) = first :: consecutive (first + 1) n.
Proof.
  unfold consecutive. simpl. f_equal; [lia|].
  rewrite <- seq_shift, map_map. apply map_ext. intro k. lia.
Qed.

Lemma consecutive_app (first : Z) (n m : nat) :
  consecutive first n ++ consecutive (first + Z.of_nat n) m
  = consecutive first (n + m).
Proof.
  revert first. induction n as [|n IH]; intro first.
  - replace (first + Z.of_nat 0) with first by lia. reflexivity.
  - simpl Nat.add. rewrite !consecutive_cons. simpl. f_equal.
    rewrite <- IH. f_equal. f_equal. lia.
Qed.

Lemma slices_loop_indexes (sig : list sample) (bs be : Q) (sl sr : Z)
  (subsegments : list (Q * Q)) :
  forall ind_offset last_ind sigs ranges inds,
    slices_loop sample repeat_signal sig bs be sl sr subsegments ind_offset
    = Ok (last_ind, (sigs, ranges, inds)) ->
    length sigs = length ranges
    /\ length ranges = length inds
    /\ inds = consecutive (ind_offset + 1) (length inds)
    /\ last_ind = ind_offset + Z.of_nat (length inds).
Proof.
  induction subsegments as [|[st dur] rest IH];
    intros off last sigs ranges inds H; simpl in H.
  - inversion H; subst. simpl. repeat split. lia.
  - destruct (Qltb be st).
    + apply IH. exact H.
    + match type of H with
      | (if ?c then _ else _) = _ => destruct c; [discriminate|]
      end.
      match type of H with
      | bind ?r _ = _ => destruct r as [[l' [[s' r'] i']]|e] eqn:E;
                          simpl in H; [|discriminate]
      end.
      inversion H; subst.
      destruct (IH _ _ _ _ _ E) as [H1 [H2 [H3 H4]]].
      simpl. repeat split; try congruence.
      * rewrite consecutive_cons. f_equal. exact H3.
      * lia.
Qed.

Lemma from_slices_indexes :
  forall (sig : list sample) (buffer_start buffer_end : Q)
         (subsegments : list (Q * Q)) (ind_offset : Z) (window : Q)
         (sample_rate : Z) last_ind sigs ranges inds,
    get_online_segments_from_slices sample repeat_signal sig buffer_start
      buffer_end subsegments ind_offset window sample_rate
    = Ok (last_ind, (sigs, ranges, inds)) ->
    length sigs = length ranges
    /\ length ranges = length inds
    /\ inds = consecutive (ind_offset + 1) (length inds)
    /\ last_ind = ind_offset + Z.of_nat (length inds).
Proof.
  intros sig bs be subs off w sr last sigs ranges inds H.
  unfold get_online_segments_from_slices in H.
  destruct (slices_loop _ _ _ _ _ _ _ _ _) as [[l' [[s' r'] i']]|e] eqn:E;
    simpl in H; [|discriminate].
  destruct (negb _); [discriminate|].
  inversion H; subst. eapply slices_loop_indexes. exact E.
Qed.

(** X20: when [get_online_segments_from_slices] returns, its three lists
    have the same length, the segment indexes are the consecutive integers
    that follow [ind_offset], and the index it returns is the last one. *)
Theorem get_online_segments_from_slices_indexes :
  forall (sig : list sample) (buffer_start buffer_end : Q)
         (subsegments : list (Q * Q)) (ind_offset : Z) (window : Q)
         (sample_rate : Z) last_ind sigs ranges inds,
    get_online_segments_from_slices sample repeat_signal sig buffer_start
      buffer_end subsegments ind_offset window sample_rate
    = Ok (last_ind, (sigs, ranges, inds)) ->
    length sigs = length ranges
    /\ length ranges = length inds
    /\ inds = consecutive (ind_offset + 1) (length inds)
    /\ last_ind = ind_offset + Z.of_nat (length inds).
Proof. intros. eapply from_slices_indexes. eassumption. Qed.

Lemma labels_loop_indexes (bs be : Q) (sr : Z) (audio : list sample)
  (w s : Q) (labels : list interval) :
  forall ind_offset sigs ranges inds,
    labels_loop sample repeat_signal bs be sr audio w s labels ind_offset
    = Ok (sigs, ranges, inds) ->
    length sigs = length ranges
    /\ length ranges = length inds
    /\ inds = consecutive (ind_offset + 1) (length inds).
Proof.
  induction labels as [|lab rest IH]; intros off sigs ranges inds H;
    simpl in H.
  - inversion H; subst. simpl. repeat split.
  - match type of H with
    | bind ?r _ = _ => destruct r as [subs|e]; simpl in H; [|discriminate]
    end.
    match type of H with
    | bind ?r _ = _ =>
        destruct r as [[l1 [[s1 r1] i1]]|e] eqn:E1; simpl in H;
          [|discriminate]
    end.
    match type of H with
    | bind ?r _ = _ =>
        destruct r as [[[s2 r2] i2]|e] eqn:E2; simpl in H; [|discriminate]
    end.
    inversion H; subst.
    destruct (from_slices_indexes _ _ _ _ _ _ _ _ _ _ _ E1)
      as [A1 [A2 [A3 A4]]].
    destruct (IH _ _ _ _ E2) as [B1 [B2 B3]].
    rewrite !length_app. repeat split; try congruence.
    rewrite <- consecutive_app. f_equal; [exact A3|].
    replace (off + 1 + Z.of_nat (length i1)) with (l1 + 1) by lia.
    exact B3.
Qed.

(** X21: when [get_online_subsegments_from_buffer] returns, its three
    lists have the same length and the new segment indexes are the
    consecutive integers that follow the last previous index (they start
    at 0 when there is no previous segment). *)
Theorem get_online_subsegments_from_buffer_indexes :
  forall (buffer_start buffer_end : Q) (sample_rate : Z)
         (speech_labels_for_update : list interval)
         (audio_buffer : list sample) (segment_indexes : list Z)
         (window shift : Q) sigs ranges inds,
    get_online_subsegments_from_buffer sample repeat_signal buffer_start
      buffer_end sample_rate speech_labels_for_update audio_buffer
      segment_indexes window shift = Ok (sigs, ranges, inds) ->
    length sigs = length ranges
    /\ length ranges = length inds
    /\ inds = consecutive (match rev segment_indexes with
                           | last_index :: _ => last_index + 1
                           | [] => 0
                           end) (length inds).
Proof.
  intros bs be sr labels audio idx w s sigs ranges inds H.
  unfold get_online_subsegments_from_buffer in H.
  destruct (labels_loop _ _ _ _ _ _ _ _ _ _) as [[[s' r'] i']|e] eqn:E;
    simpl in H; [|discriminate].
  destruct (negb _); [discriminate|].
  inversion H; subst.
  destruct (labels_loop_indexes _ _ _ _ _ _ _ _ _ _ _ E) as [H1 [H2 H3]].
  repeat split; try assumption.
  destruct (rev idx); exact H3.
Qed.

End WithBuffer.

Lemma get_online_segments_from_slices_indexes_witness :
  length [[1; 2]; [2; 3]] = length [(0, 2); (1, 3)]%Q
  /\ length [(0, 2); (1, 3)]%Q = length [5; 6]
  /\ [5; 6] = consecutive (4 + 1) (length [5; 6])
  /\ 6 = 4 + Z.of_nat (length [5; 6]).
Proof.
  apply (get_online_segments_from_slices_indexes Z (fun s _ _ => s)
           [1; 2; 3; 4] 0 4 [(0, 2); (1, 2)]%Q 4 2 1 6
           [[1; 2]; [2; 3]] [(0, 2); (1, 3)]%Q [5; 6]).
  vm_compute. reflexivity.
Defined.

Lemma get_online_subsegments_from_buffer_indexes_witness :
  length [[1; 2]; [2; 3]; [3; 4]] = length [(0, 2); (1, 3); (2, 4)]%Q
  /\ length [(0, 2); (1, 3); (2, 4)]%Q = length [8; 9; 10]
  /\ [8; 9; 10]
     = consecutive (match rev [7] with
                    | last_index :: _ => last_index + 1
                    | [] => 0
                    end) (length [8; 9; 10]).
Proof.
  apply (get_online_subsegments_from_buffer_indexes Z (fun s _ _ => s)
           0 4 1 [(0, 4)]%Q [1; 2; 3; 4] [7] 2 1
           [[1; 2]; [2; 3]; [3; 4]] [(0, 2); (1, 3); (2, 4)]%Q [8; 9; 10]).
  vm_compute. reflexivity.
Defined.

End OnlineBufferProperties.

(** * Further properties of the clustering driver *)

Section ClusteringLoop.

Import Clustering.

Variable labels : Type.
Variable cluster_session : Z -> string -> Z -> result labels.

Lemma lookup_in {V : Type} (d : list (string * V)) (k : string) (v : V) :
  lookup d k = Ok v -> In (k, v) d.
Proof.
  induction d as [|[k' v'] rest IH]; simpl; intro H; [discriminate|].
  destruct (String.eqb k' k) eqn:E.
  - apply String.eqb_eq in E. inversion H; subst. left. reflexivity.
  - right. apply IH. exact H.
Qed.

Lemma sessions_loop_invariants (items : list (string * audio_rttm_values))
  (scale_mapping_dict : list (string * Z))
  (e_dict t_dict v_dict : list (string * unit))
  (cp : clustering_params) (thres : Z) :
  forall b l,
    sessions_loop labels cluster_session b items scale_mapping_dict e_dict
                  t_dict v_dict cp thres = Ok l ->
    0 <= b ->
    map (fun x => fst (fst x)) l = map fst items
    /\ Forall (fun x => 0 <= snd (fst x) <= b) l
    /\ StronglySorted (fun x y => snd (fst y) <= snd (fst x)) l.
Proof.
  induction items as [|[uid v] rest IH]; intros b l H Hb; simpl in H.
  - inversion H; subst. repeat split; constructor.
  - destruct (lookup scale_mapping_dict uid) as [n|e]; simpl in H;
      [|discriminate].
    destruct (lookup e_dict uid); simpl in H; [|discriminate].
    destruct (lookup t_dict uid); simpl in H; [|discriminate].
    destruct (lookup v_dict uid); simpl in H; [|discriminate].
    destruct (oracle_num_speakers cp && _); [discriminate|].
    destruct (cluster_session _ uid n) as [lab|e]; simpl in H; [|discriminate].
    set (b' := if thres <? n then Z.max 0 (b - 1) else b) in *.
    assert (Hb' : 0 <= b' <= b) by (unfold b'; destruct (thres <? n); lia).
    destruct (sessions_loop _ _ b' rest _ _ _ _ _ _) as [others|e] eqn:E;
      simpl in H; [|discriminate].
    inversion H; subst.
    destruct (IH _ _ E) as [H1 [H2 H3]]; [lia|].
    simpl. split; [f_equal; exact H1|]. split.
    + constructor; [simpl; lia|].
      eapply Forall_impl; [|exact H2]. intros x Hx. simpl in *. lia.
    + constructor; [exact H3|].
      eapply Forall_impl; [|exact H2]. intros x Hx. simpl in *. lia.
Qed.

(** X23: when [perform_clustering_embs] returns, it has processed every
    session of [AUDIO_RTTM_MAP] in order, and for a non-negative
    [clustering_scale_index] the scale index of every session lies between
    0 and [clustering_scale_index] and never increases from one session to
    the next. *)
Theorem perform_clustering_embs_scale_index_bounds :
  forall (e_dict t_dict v_dict : list (string * unit))
         (scale_mapping_dict : list (string * Z))
         (AUDIO_RTTM_MAP : list (string * audio_rttm_values))
         (cp : clustering_params) (long_audio_thres : Z) l,
    perform_clustering_embs labels cluster_session e_dict t_dict v_dict
      scale_mapping_dict AUDIO_RTTM_MAP cp long_audio_thres = Ok l ->
    0 <= clustering_scale_index cp ->
    map (fun x => fst (fst x)) l = map fst AUDIO_RTTM_MAP
    /\ Forall (fun x => 0 <= snd (fst x) <= clustering_scale_index cp) l
    /\ StronglySorted (fun x y => snd (fst y) <= snd (fst x)) l.
Proof.
  intros e_dict t_dict v_dict sm items cp thres l H Hc.
  unfold perform_clustering_embs in H.
  destruct e_dict as [|e0 e_dict]; [discriminate|].
  destruct t_dict as [|t0 t_dict]; [discriminate|].
  eapply sessions_loop_invariants; eassumption.
Qed.

Lemma sessions_loop_short (items : list (string * audio_rttm_values))
  (scale_mapping_dict : list (string * Z))
  (e_dict t_dict v_dict : list (string * unit))
  (cp : clustering_params) (thres : Z) :
  Forall (fun kv => snd kv <= thres) scale_mapping_dict ->
  forall b l,
    sessions_loop labels cluster_session b items scale_mapping_dict e_dict
                  t_dict v_dict cp thres = Ok l ->
    Forall (fun x => snd (fst x) = b) l.
Proof.
  intro Hshort.
  induction items as [|[uid v] rest IH]; intros b l H; simpl in H.
  - inversion H; subst. constructor.
  - destruct (lookup scale_mapping_dict uid) as [n|e] eqn:En; simpl in H;
      [|discriminate].
    destruct (lookup e_dict uid); simpl in H; [|discriminate].
    destruct (lookup t_dict uid); simpl in H; [|discriminate].
    destruct (lookup v_dict uid); simpl in H; [|discriminate].
    destruct (oracle_num_speakers cp && _); [discriminate|].
    apply lookup_in in En. rewrite Forall_forall in Hshort.
    specialize (Hshort _ En). simpl in Hshort.
    destruct (thres <? n) eqn:E; [lia|].
    destruct (cluster_session b uid n) as [lab|e]; simpl in H; [|discriminate].
    destruct (sessions_loop _ _ b rest _ _ _ _ _ _) as [others|e] eqn:E';
      simpl in H; [|discriminate].
    inversion H; subst. constructor; [reflexivity|]. apply IH. exact E'.
Qed.

(** X24: when no session is long (every segment count is at most
    [long_audio_thres]), [perform_clustering_embs] clusters every session
    at [clustering_scale_index]. *)
Theorem perform_clustering_embs_all_short :
  forall (e_dict t_dict v_dict : list (string * unit))
         (scale_mapping_dict : list (string * Z))
         (AUDIO_RTTM_MAP : list (string * audio_rttm_values))
         (cp : clustering_params) (long_audio_thres : Z) l,
    Forall (fun kv => snd kv <= long_audio_thres) scale_mapping_dict ->
    perform_clustering_embs labels cluster_session e_dict t_dict v_dict
      scale_mapping_dict AUDIO_RTTM_MAP cp long_audio_thres = Ok l ->
    Forall (fun x => snd (fst x) = clustering_scale_index cp) l.
Proof.
  intros e_dict t_dict v_dict sm items cp thres l Hshort H.
  unfold perform_clustering_embs in H.
  destruct e_dict as [|e0 e_dict]; [discriminate|].
  destruct t_dict as [|t0 t_dict]; [discriminate|].
  eapply sessions_loop_short; eassumption.
Qed.

Lemma sessions_loop_inputs (items : list (string * audio_rttm_values))
  (scale_mapping_dict : list (string * Z))
  (e_dict t_dict v_dict : list (string * unit))
  (cp : clustering_params) (thres : Z) :
  forall b l,
    sessions_loop labels cluster_session b items scale_mapping_dict e_dict
                  t_dict v_dict cp thres = Ok l ->
    Forall (fun kv =>
              returns (lookup scale_mapping_dict (fst kv))
              /\ returns (lookup e_dict (fst kv))
              /\ returns (lookup t_dict (fst kv))
              /\ returns (lookup v_dict (fst kv))
              /\ (oracle_num_speakers cp = true ->
                  num_speakers (snd kv) <> None)) items.
Proof.
  induction items as [|[uid v] rest IH]; intros b l H; simpl in H.
  - constructor.
  - destruct (lookup scale_mapping_dict uid) as [n|e] eqn:E1; simpl in H;
      [|discriminate].
    destruct (lookup e_dict uid) eqn:E2; simpl in H; [|discriminate].
    destruct (lookup t_dict uid) eqn:E3; simpl in H; [|discriminate].
    destruct (lookup v_dict uid) eqn:E4; simpl in H; [|discriminate].
    destruct (oracle_num_speakers cp && _) eqn:E5; [discriminate|].
    destruct (cluster_session _ uid n) as [lab|e]; simpl in H; [|discriminate].
    match type of H with
    | bind ?r _ = _ => destruct r as [others|e] eqn:E; simpl in H;
                        [|discriminate]
    end.
    constructor; [|eapply IH; exact E]. simpl.
    rewrite E1, E2, E3, E4.
    repeat split; try (eexists; reflexivity).
    intros Ho Hn. rewrite Ho, Hn in E5. discriminate.
Qed.

(** X25: [perform_clustering_embs] returns only if every session of
    [AUDIO_RTTM_MAP] has an entry in the scale-mapping, embedding,
    time-stamp and VAD dictionaries, and, with [oracle_num_speakers], a
    [num_speakers] value in the manifest; the two input dictionaries it
    checks are not empty. *)
Theorem perform_clustering_embs_inputs_present :
  forall (e_dict t_dict v_dict : list (string * unit))
         (scale_mapping_dict : list (string * Z))
         (AUDIO_RTTM_MAP : list (string * audio_rttm_values))
         (cp : clustering_params) (long_audio_thres : Z) l,
    perform_clustering_embs labels cluster_session e_dict t_dict v_dict
      scale_mapping_dict AUDIO_RTTM_MAP cp long_audio_thres = Ok l ->
    e_dict <> [] /\ t_dict <> []
    /\ Forall (fun kv =>
                 returns (lookup scale_mapping_dict (fst kv))
                 /\ returns (lookup e_dict (fst kv))
                 /\ returns (lookup t_dict (fst kv))
                 /\ returns (lookup v_dict (fst kv))
                 /\ (oracle_num_speakers cp = true ->
                     num_speakers (snd kv) <> None)) AUDIO_RTTM_MAP.
Proof.
  intros e_dict t_dict v_dict sm items cp thres l H.
  unfold perform_clustering_embs in H.
  destruct e_dict as [|e0 e_dict]; [discriminate|].
  destruct t_dict as [|t0 t_dict]; [discriminate|].
  split; [discriminate|]. split; [discriminate|].
  eapply sessions_loop_inputs. exact H.
Qed.

End ClusteringLoop.

Lemma perform_clustering_embs_scale_index_bounds_witness :
  map (fun x => fst (fst x))
      [("long"%string, 1, 1); ("short"%string, 1, 1)]
  = map fst Clustering.two_sessions
  /\ Forall (fun x : string * Z * Z => 0 <= snd (fst x) <= 2)
       [("long"%string, 1, 1); ("short"%string, 1, 1)]
  /\ StronglySorted
       (fun x y : string * Z * Z => snd (fst y) <= snd (fst x))
       [("long"%string, 1, 1); ("short"%string, 1, 1)].
Proof.
  apply (perform_clustering_embs_scale_index_bounds Z (fun b _ _ => Ok b)
           Clustering.two_tensors Clustering.two_tensors
           Clustering.two_tensors Clustering.two_scale_maps
           Clustering.two_sessions (Clustering.mkClusParams 2 false)
           Clustering.DEFAULT_LONG_AUDIO_THRES).
  - vm_compute. reflexivity.
  - simpl. lia.
Defined.

Lemma perform_clustering_embs_all_short_witness :
  Forall (fun x : string * Z * Z => snd (fst x) = 2)
    [("a"%string, 2, 2); ("b"%string, 2, 2)].
Proof.
  apply (perform_clustering_embs_all_short Z (fun b _ _ => Ok b)
           [("a"%string, tt); ("b"%string, tt)]
           [("a"%string, tt); ("b"%string, tt)]
           [("a"%string, tt); ("b"%string, tt)]
           [("a"%string, 7); ("b"%string, 9)]
           [("a"%string, Clustering.mkValues None);
            ("b"%string, Clustering.mkValues None)]
           (Clustering.mkClusParams 2 false) 100).
  - repeat constructor; simpl; lia.
  - vm_compute. reflexivity.
Defined.

Lemma perform_clustering_embs_inputs_present_witness :
  Clustering.two_tensors <> [] /\ Clustering.two_tensors <> []
  /\ Forall (fun kv =>
               returns (Clustering.lookup Clustering.two_scale_maps (fst kv))
               /\ returns (Clustering.lookup Clustering.two_tensors (fst kv))
               /\ returns (Clustering.lookup Clustering.two_tensors (fst kv))
               /\ returns (Clustering.lookup Clustering.two_tensors (fst kv))
               /\ (Clustering.oracle_num_speakers
                     (Clustering.mkClusParams 2 false) = true ->
                   Clustering.num_speakers (snd kv) <> None))
       Clustering.two_sessions.
Proof.
  apply (perform_clustering_embs_inputs_present Z (fun b _ _ => Ok b)
           Clustering.two_tensors Clustering.two_tensors
           Clustering.two_tensors Clustering.two_scale_maps
           Clustering.two_sessions (Clustering.mkClusParams 2 false)
           Clustering.DEFAULT_LONG_AUDIO_THRES
           [("long"%string, 1, 1); ("short"%string, 1, 1)]).
  vm_compute. reflexivity.
Defined.

(** * Further properties of the MSDD post-processor *)

Section MsddFurther.

Import Msdd.

(** X26: without [use_ts_vad], [mixdown_msdd_preds] never returns: when
    the channel dispatch succeeds, the emission branch reads the unbound
    local [timestamps]. *)
Theorem mixdown_msdd_preds_needs_ts_vad :
  forall (vad_params_t : Type)
         (ts_vad_post_processing : list Q -> vad_params_t -> Z -> list (Q * Q))
         clus_labels msdd_preds offset threshold vad_params p,
    use_ts_vad p = false ->
    raises (mixdown_msdd_preds vad_params_t ts_vad_post_processing
              clus_labels msdd_preds offset threshold vad_params p).
Proof.
  intros V ts clus msdd off th vp p H. unfold mixdown_msdd_preds.
  destruct (mixdown_assign_mat clus msdd off th p) as [m|e]; simpl.
  - rewrite H. eexists. reflexivity.
  - eexists. reflexivity.
Qed.

Lemma mixdown_msdd_preds_needs_ts_vad_witness :
  raises (mixdown_msdd_preds unit (fun _ _ _ => []) [0]
            (Tensor3 2 1 [[[Fin (9 # 10)]; [Fin (1 # 10)]]]) 0 (1 # 2) tt
            (mkParams false true 0 0 "post_max" false 1)).
Proof.
  apply (mixdown_msdd_preds_needs_ts_vad unit (fun _ _ _ => []) [0]
           (Tensor3 2 1 [[[Fin (9 # 10)]; [Fin (1 # 10)]]]) 0 (1 # 2) tt
           (mkParams false true 0 0 "post_max" false 1)).
  reflexivity.
Defined.

End MsddFurther.

Section MsddTop1.
Import Msdd.

Lemma combine_map_same {A B C : Type} (f : A -> B) (g : A -> C) (l : list A) :
  combine (map f l) (map g l) = map (fun x => (f x, g x)) l.
Proof. induction l; simpl; congruence. Qed.

Lemma zero_rows_all {A : Type} (z : A) (R : list (list A)) (B : Type)
  (l : list B) :
  length l = length R ->
  zero_rows z (map (fun _ => true) l) R = map (map (fun _ => z)) R.
Proof.
  revert R. induction l as [|b l IH]; intros [|r R] H; simpl in *;
    try discriminate; [reflexivity|].
  unfold zero_rows in *. simpl. f_equal. apply IH. congruence.
Qed.

Lemma mask_row_length (picked : list nat) (row : list fval) :
  length (mask_row picked row) = length row.
Proof.
  unfold mask_row. rewrite length_map, length_combine, length_seq.
  apply Nat.min_id.
Qed.

Lemma mask_inactive_shape (act : list Z) (rows : matrix) (n : nat) :
  Forall (fun r => length r = n) rows ->
  length (mask_inactive act rows) = length rows
  /\ Forall (fun r => length r = n) (mask_inactive act rows).
Proof.
  intro H. unfold mask_inactive. split; [apply length_map|].
  apply Forall_map. eapply Forall_impl; [|exact H].
  intros r Hr. simpl in *. rewrite length_map, length_combine, length_seq.
  rewrite Nat.min_id. exact Hr.
Qed.

Lemma sum_zeros {A : Type} (l : list A) :
  fold_left Z.add (map (fun _ => 0) l) 0 = 0.
Proof. induction l; simpl; auto. Qed.

Lemma top1_assign_row (one : list Z) (r : list fval) :
  length one = length r ->
  Forall (fun x => x = 0 \/ x = 1) one ->
  map (fun e : Z * fval => b2z ((fst e =? 1) || ftruthy (snd e)))
      (combine one (map (fun _ => fzero) r)) = one.
Proof.
  revert r. induction one as [|x one IH]; intros [|y r] Hl Hall; simpl in *;
    try discriminate; [reflexivity|].
  inversion Hall as [|? ? Hx Hrest]; subst.
  f_equal; [|apply IH; [congruence|exact Hrest]].
  destruct Hx; subst; reflexivity.
Qed.

Lemma final_vad_mask (clus : list Z) (S : list (list Z)) :
  length clus = length S ->
  Forall (fun r => fold_left Z.add r 0 = 1) S ->
  map (fun r => fold_left Z.add r 0)
      (zero_rows 0 (map negb (vad_mask_of clus)) S)
  = map (fun c => if -1 <? c then 1 else 0) clus.
Proof.
  revert S. induction clus as [|c clus IH]; intros [|r S] Hl Hall;
    simpl in *; try discriminate; [reflexivity|].
  inversion Hall; subst. unfold zero_rows in *. simpl.
  f_equal; [|apply IH; [congruence|assumption]].
  destruct (-1 <? c); simpl; [assumption|apply sum_zeros].
Qed.

Lemma combine_map_left {A B : Type} (g : A -> B) (l : list A) :
  combine (map g l) l = map (fun x => (g x, x)) l.
Proof. induction l; simpl; congruence. Qed.

Lemma top1_unfold (ncols : nat) (R : matrix) :
  get_top_k_for_each_row ncols R 1 ncols
  = if Z.of_nat ncols <? 1 then Raise RuntimeError
    else Ok (map (fun r => mask_row (map fst (topk_row 1 r)) r) R,
             map (fun _ => fzero) R).
Proof.
  unfold get_top_k_for_each_row. simpl.
  destruct (Z.of_nat ncols <? 1); [reflexivity|].
  rewrite combine_map_left, map_map. reflexivity.
Qed.

Lemma zero_rows_01 (flags : list bool) (S : list (list Z)) :
  Forall (Forall (fun x => x = 0 \/ x = 1)) S ->
  Forall (Forall (fun x => x = 0 \/ x = 1)) (zero_rows 0 flags S).
Proof.
  intro H. unfold zero_rows. apply Forall_map. apply Forall_forall.
  intros [f r] Hin. simpl. apply in_combine_r in Hin.
  rewrite Forall_forall in H. specialize (H r Hin).
  destruct f; [|exact H]. apply Forall_map.
  apply Forall_forall. intros; left; reflexivity.
Qed.

(** X27: in top-1 mode ([infer_overlap] unset, positive threshold, VAD
    masking by cluster labels), a matrix returned by
    [generate_speaker_timestamps] has one row per cluster label, with
    entries 0 or 1; the row of a speech frame (label above -1) activates
    exactly one speaker and the row of a non-speech frame none. *)
Theorem generate_speaker_timestamps_top1_rows :
  forall clus_labels ncols rows threshold max_overlap_count p A,
    infer_overlap p = false ->
    (0 < threshold)%Q ->
    (ts_vad_threshold p <= 0)%Q ->
    Forall (fun r => length r = ncols) rows ->
    generate_speaker_timestamps clus_labels (Tensor2 ncols rows) threshold
      max_overlap_count p = Ok A ->
    map (fun r => fold_left Z.add r 0) A
    = map (fun c => if -1 <? c then 1 else 0) clus_labels
    /\ Forall (Forall (fun x => x = 0 \/ x = 1)) A.
Proof.
  intros clus ncols rows th moc p A Hinf Hth Hts Hshape H.
  unfold generate_speaker_timestamps, generate_speaker_timestamps_2d in H.
  rewrite Hinf in H. cbv zeta in H.
  match type of H with
  | bind ?m _ = _ => destruct m as [[act R]|e] eqn:Em; [|discriminate]
  end.
  assert (HR : length R = length rows /\ Forall (fun r => length r = ncols) R).
  { destruct (mask_spks_with_clus p).
    - destruct (existsb _ _); [discriminate|]. inversion Em; subst.
      apply mask_inactive_shape. exact Hshape.
    - inversion Em; subst. auto. }
  clear Em. destruct HR as [HRl HRs].
  cbn [bind negb] in H.
  destruct (negb (length clus =? length R)%nat || _) eqn:Ei; [discriminate|].
  apply orb_false_iff in Ei. destruct Ei as [Ei _].
  apply negb_false_iff, Nat.eqb_eq in Ei.
  rewrite top1_unfold in H.
  destruct (Z.of_nat ncols <? 1); [discriminate|].
  cbn [bind fst snd] in H.
  destruct (negb (forallb _ _)); [discriminate|].
  destruct (negb (forallb _ _)) eqn:Eone; [discriminate|].
  apply negb_false_iff in Eone.
  apply Qleb_le in Hts. rewrite Hts in H. inversion H as [HA]. clear H HA.
  set (M1 := map (fun r => mask_row (map fst (topk_row 1 r)) r) R) in *.
  set (g := fun x : fval => b2z (fgt x fzero)) in *.
  set (flags := map (fun s => flt s (Fin (overlap_infer_spk_limit p)))
                    (spk_time_each_of ncols rows)) in *.
  assert (HM1 : Forall (fun r => length r = ncols) M1).
  { unfold M1. apply Forall_map. eapply Forall_impl; [|exact HRs].
    intros r Hr. simpl in *. rewrite mask_row_length. exact Hr. }
  assert (Hflags : length flags = ncols).
  { unfold flags, spk_time_each_of. rewrite !length_map, length_seq.
    reflexivity. }
  assert (Hgap : map (fun gap => flt gap (Fin th)) (map (fun _ => fzero) R)
                 = map (fun _ => true) R).
  { rewrite map_map. apply map_ext. intros _. simpl.
    apply Qltb_lt. exact Hth. }
  rewrite Hgap.
  rewrite zero_rows_all.
  2:{ unfold zero_cols, M1. rewrite !length_map. reflexivity. }
  unfold zero_cols. rewrite map_map, combine_map_same, map_map.
  cbn [fst snd].
  match goal with
  | |- context [zero_rows 0 _ (map ?F M1)] =>
      assert (Hsam : map F M1 = map (map g) M1)
  end.
  { apply map_ext_in. intros r Hr. cbn [fst snd].
    rewrite Forall_forall in HM1. specialize (HM1 r Hr).
    apply top1_assign_row.
    - rewrite !length_map, length_combine. lia.
    - apply Forall_map. apply Forall_forall. intros x _. unfold g.
      destruct (fgt x fzero); auto. }
  rewrite Hsam. split.
  - apply final_vad_mask.
    + unfold M1. rewrite !length_map. exact Ei.
    + apply Forall_forall. intros r Hr.
      rewrite forallb_forall in Eone. specialize (Eone r Hr).
      apply Z.eqb_eq in Eone. exact Eone.
  - apply zero_rows_01. apply Forall_map. apply Forall_forall.
    intros r _. apply Forall_map. apply Forall_forall. intros x _.
    unfold g. destruct (fgt x fzero); auto.
Qed.

Lemma generate_speaker_timestamps_top1_rows_witness :
  map (fun r => fold_left Z.add r 0) [[1; 0]; [0; 0]]
  = map (fun c => if -1 <? c then 1 else 0) [0; -1]
  /\ Forall (Forall (fun x => x = 0 \/ x = 1)) [[1; 0]; [0; 0]].
Proof.
  apply (generate_speaker_timestamps_top1_rows [0; -1] 2
           [[Fin (9 # 10); Fin (1 # 10)]; [Fin (2 # 10); Fin (1 # 10)]]
           (1 # 2) 2 top1_params).
  - reflexivity.
  - reflexivity.
  - unfold Qle. simpl. lia.
  - repeat constructor.
  - vm_compute. reflexivity.
Defined.
End MsddTop1.

(** * Properties of the scale schedule and of the speaker turns *)

Section ScaleSchedule.

Import Scales.

Lemma qinsert_forall (P : Q -> Prop) (x : Q) (l : list Q) :
  P x -> Forall P l -> Forall P (qinsert x l).
Proof.
  intros Hx H. induction H as [|y tl Hy Htl IH]; simpl.
  - constructor; [exact Hx|constructor].
  - destruct (Qleb x y).
    + constructor; [exact Hx|]. constructor; assumption.
    + constructor; assumption.
Qed.

Lemma qinsert_sorted (x : Q) (l : list Q) :
  StronglySorted Qle l -> StronglySorted Qle (qinsert x l).
Proof.
  induction 1 as [|y tl Hs IH Hall]; simpl.
  - repeat constructor.
  - destruct (Qleb x y) eqn:E.
    + apply Qleb_le in E. constructor; [constructor; assumption|].
      constructor; [exact E|].
      eapply Forall_impl; [|exact Hall]. intros a Ha. simpl in Ha. lra.
    + apply Qleb_gt in E. constructor; [exact IH|].
      apply qinsert_forall; [lra|exact Hall].
Qed.

Lemma qsorted_sorted (l : list Q) : StronglySorted Qle (qsorted l).
Proof.
  induction l; simpl; [constructor|]. apply qinsert_sorted. assumption.
Qed.

Lemma sorted_snoc (R : Q -> Q -> Prop) (l : list Q) (x : Q) :
  StronglySorted R l -> Forall (fun a => R a x) l ->
  StronglySorted R (l ++ [x]).
Proof.
  induction 1 as [|y tl Hs IH Hall]; intro H; simpl.
  - repeat constructor.
  - inversion H; subst. constructor; [apply IH; assumption|].
    apply Forall_app. split; [exact Hall|]. constructor; [assumption|constructor].
Qed.

Lemma sorted_rev (l : list Q) :
  StronglySorted Qle l -> StronglySorted (fun a b => (b <= a)%Q) (rev l).
Proof.
  induction 1 as [|y tl Hs IH Hall]; simpl; [constructor|].
  apply sorted_snoc; [exact IH|].
  apply Forall_rev. exact Hall.
Qed.

Lemma qlist_eqb_sorted (a b : list Q) :
  qlist_eqb a b = true ->
  StronglySorted (fun x y => (y <= x)%Q) b ->
  StronglySorted (fun x y => (y <= x)%Q) a.
Proof.
  revert b. induction a as [|x a IH]; intros [|y b] He Hs; simpl in He;
    try discriminate; [constructor|].
  apply andb_true_iff in He. destruct He as [Hxy He].
  apply Qeq_bool_iff in Hxy. inversion Hs as [|? ? Hs' Hall]; subst.
  constructor; [eapply IH; eassumption|].
  clear IH Hs Hs'. revert b He Hall.
  induction a as [|z a IHa]; intros [|w b] He Hall; simpl in He;
    try discriminate; [constructor|].
  apply andb_true_iff in He. destruct He as [Hzw He].
  apply Qeq_bool_iff in Hzw. inversion Hall; subst.
  constructor; [lra|]. eapply IHa; eassumption.
Qed.

Lemma descending_check (l : list Q) :
  qlist_eqb l (rev (qsorted l)) = true ->
  StronglySorted (fun x y => (y <= x)%Q) l.
Proof.
  intro H. eapply qlist_eqb_sorted; [exact H|].
  apply sorted_rev. apply qsorted_sorted.
Qed.

Lemma check_and_build_sound (w s m : list Q) (a : scale_args) :
  check_and_build w s m = Ok (Some a) ->
  scale_dict a <> []
  /\ map fst (scale_dict a) = seq 0 (length (scale_dict a))
  /\ length (multiscale_weights a) = length (scale_dict a)
  /\ Forall (fun e => (snd (snd e) < fst (snd e))%Q) (scale_dict a)
  /\ StronglySorted (fun x y => (y <= x)%Q)
       (map (fun e => fst (snd e)) (scale_dict a))
  /\ StronglySorted (fun x y => (y <= x)%Q)
       (map (fun e => snd (snd e)) (scale_dict a)).
Proof.
  unfold check_and_build. intro H.
  assert (Hgen : forall pairs : list (Q * Q),
             length pairs = length m -> pairs <> [] ->
             Forall (fun ws => (snd ws < fst ws)%Q) pairs ->
             StronglySorted (fun x y => (y <= x)%Q) (map fst pairs) ->
             StronglySorted (fun x y => (y <= x)%Q) (map snd pairs) ->
             let d := combine (seq 0 (length pairs)) pairs in
             d <> []
             /\ map fst d = seq 0 (length d)
             /\ length m = length d
             /\ Forall (fun e => (snd (snd e) < fst (snd e))%Q) d
             /\ StronglySorted (fun x y => (y <= x)%Q)
                  (map (fun e => fst (snd e)) d)
             /\ StronglySorted (fun x y => (y <= x)%Q)
                  (map (fun e => snd (snd e)) d)).
  { intros pairs Hl Hne Hlt Hw Hs d.
    assert (Hd : length d = length pairs).
    { unfold d. rewrite length_combine, length_seq. lia. }
    assert (Hsnd : map snd d = pairs).
    { unfold d. apply map_snd_combine. apply length_seq. }
    split.
    { intro E. rewrite E in Hd. simpl in Hd. destruct pairs; [auto|discriminate]. }
    split.
    { unfold d at 1. rewrite map_fst_combine by apply length_seq.
      rewrite Hd. reflexivity. }
    split; [lia|].
    split.
    { apply Forall_forall. intros e He.
      rewrite Forall_forall in Hlt. apply Hlt. rewrite <- Hsnd.
      apply in_map. exact He. }
    split.
    - rewrite <- (map_map snd fst), Hsnd. exact Hw.
    - rewrite <- (map_map snd snd), Hsnd. exact Hs. }
  destruct (Nat.ltb 1 (length w)) eqn:E1; cbn [bind] in H.
  - match type of H with
    | (if ?c then _ else _) = _ => destruct c eqn:Ec; [|discriminate]
    end.
    inversion H; subst a. cbn [scale_dict multiscale_weights].
    apply andb_true_iff in Ec. destruct Ec as [Ec Hsh].
    apply andb_true_iff in Ec. destruct Ec as [Hlen Hord].
    apply andb_true_iff in Hlen. destruct Hlen as [Hlen Hpos].
    apply andb_true_iff in Hlen. destruct Hlen as [Hws Hsm].
    apply Nat.eqb_eq in Hws, Hsm. apply Nat.ltb_lt in Hpos, E1.
    apply andb_true_iff in Hord. destruct Hord as [Ho1 Ho2].
    destruct (Hgen (combine w s)) as [G1 [G2 [G3 [G4 [G5 G6]]]]].
    + rewrite length_combine. lia.
    + intro E. apply (f_equal (@length _)) in E.
      rewrite length_combine in E. simpl in E. lia.
    + apply Forall_forall. intros ws Hin.
      rewrite forallb_forall in Hsh. apply Qltb_lt. apply Hsh. exact Hin.
    + rewrite map_fst_combine by exact Hws. apply descending_check. exact Ho1.
    + rewrite map_snd_combine by exact Hws. apply descending_check. exact Ho2.
    + repeat split; assumption.
  - destruct w as [|w0 w']; cbn [first_item bind] in H; [discriminate|].
    destruct s as [|s0 s']; cbn [first_item bind] in H; [discriminate|].
    match type of H with
    | (if ?c then _ else _) = _ => destruct c eqn:Ec; [|discriminate]
    end.
    inversion H; subst a. cbn [scale_dict multiscale_weights].
    apply andb_true_iff in Ec. destruct Ec as [Ec Hsh].
    apply andb_true_iff in Ec. destruct Ec as [Hlen _].
    apply andb_true_iff in Hlen. destruct Hlen as [Hlen Hpos].
    apply andb_true_iff in Hlen. destruct Hlen as [Hws Hsm].
    apply Nat.eqb_eq in Hws, Hsm. apply Nat.ltb_ge in E1.
    simpl in E1, Hws, Hsm.
    destruct (Hgen [(w0, s0)]) as [G1 [G2 [G3 [G4 [G5 G6]]]]].
    + simpl. lia.
    + discriminate.
    + constructor; [simpl; apply Qltb_lt; exact Hsh|constructor].
    + simpl. repeat constructor.
    + simpl. repeat constructor.
    + repeat split; assumption.
Qed.

(** X28: a schedule returned by [parse_scale_configs] is never empty; its
    scales are numbered 0, 1, 2, ... and come with one weight each; in
    every scale the window is longer than the shift; and both the windows
    and the shifts are in non-increasing order (equal neighbours are
    accepted). *)
Theorem parse_scale_configs_sound :
  forall (window_lengths_in_sec shift_lengths_in_sec weights : cfg)
         (a : scale_args),
    parse_scale_configs window_lengths_in_sec shift_lengths_in_sec weights
    = Ok (Some a) ->
    scale_dict a <> []
    /\ map fst (scale_dict a) = seq 0 (length (scale_dict a))
    /\ length (multiscale_weights a) = length (scale_dict a)
    /\ Forall (fun e => (snd (snd e) < fst (snd e))%Q) (scale_dict a)
    /\ StronglySorted (fun x y => (y <= x)%Q)
         (map (fun e => fst (snd e)) (scale_dict a))
    /\ StronglySorted (fun x y => (y <= x)%Q)
         (map (fun e => snd (snd e)) (scale_dict a)).
Proof.
  intros w s m a H. unfold parse_scale_configs in H.
  destruct w as [w|w|], s as [s|s|], m as [m|m|];
    try (apply check_and_build_sound in H; exact H);
    simpl in H; discriminate.
Qed.

Lemma parse_scale_configs_sound_witness :
  let a := mkScaleArgs false
             [(0%nat, (3 # 2, 3 # 4)); (1%nat, (1, 1 # 2));
              (2%nat, (1 # 2, 1 # 4))]%Q [1; 1; 1]%Q in
  scale_dict a <> []
  /\ map fst (scale_dict a) = seq 0 (length (scale_dict a))
  /\ length (multiscale_weights a) = length (scale_dict a)
  /\ Forall (fun e => (snd (snd e) < fst (snd e))%Q) (scale_dict a)
  /\ StronglySorted (fun x y => (y <= x)%Q)
       (map (fun e => fst (snd e)) (scale_dict a))
  /\ StronglySorted (fun x y => (y <= x)%Q)
       (map (fun e => snd (snd e)) (scale_dict a)).
Proof.
  apply (parse_scale_configs_sound
           (CList [3 # 2; 1; 1 # 2]%Q) (CList [3 # 4; 1 # 2; 1 # 4]%Q)
           (CList [1; 1; 1]%Q)).
  vm_compute. reflexivity.
Defined.

End ScaleSchedule.

Section SpeakerTurns.

Import Stamps.

Lemma contiguous_from_head (cur : stamp) (rest : list stamp) :
  exists e tl,
    contiguous_from cur rest = e :: tl /\ st_start e = st_start cur.
Proof.
  destruct rest as [|nxt tl]; simpl.
  - eexists. eexists. split; reflexivity.
  - destruct (Qltb (st_start nxt) (st_end cur)); eexists; eexists;
      split; reflexivity.
Qed.

Lemma contiguous_from_spec (rest : list stamp) :
  forall cur,
    length (contiguous_from cur rest) = S (length rest)
    /\ map st_speaker (contiguous_from cur rest)
       = st_speaker cur :: map st_speaker rest
    /\ Sorted no_overlap (contiguous_from cur rest).
Proof.
  induction rest as [|nxt tl IH]; intro cur; cbn [contiguous_from].
  - repeat split. repeat constructor.
  - destruct (Qltb (st_start nxt) (st_end cur)) eqn:E; cbv zeta.
    + set (avg := Qred ((st_start nxt + st_end cur) / 2)).
      destruct (IH (mkStamp avg (st_end nxt) (st_speaker nxt)))
        as [H1 [H2 H3]].
      destruct (contiguous_from_head
                  (mkStamp avg (st_end nxt) (st_speaker nxt)) tl)
        as [e [tl' [He Hs]]].
      cbn [length map st_speaker st_start st_end] in *.
      rewrite H1, H2. repeat split.
      constructor; [exact H3|]. rewrite He. constructor.
      unfold no_overlap. cbn [st_end]. rewrite Hs. apply Qle_refl.
    + destruct (IH nxt) as [H1 [H2 H3]].
      destruct (contiguous_from_head nxt tl) as [e [tl' [He Hs]]].
      cbn [length map]. rewrite H1, H2. repeat split.
      constructor; [exact H3|]. rewrite He. constructor.
      unfold no_overlap. rewrite Hs. apply Qltb_ge. exact E.
Qed.

Lemma get_contiguous_stamps_spec_aux (stamps : list stamp) :
  length (get_contiguous_stamps stamps) = length stamps
  /\ Sorted no_overlap (get_contiguous_stamps stamps).
Proof.
  destruct stamps as [|x tl]; simpl.
  - split; constructor.
  - destruct (contiguous_from_spec tl x) as [H1 [_ H3]]. auto.
Qed.

(** X29: [get_contiguous_stamps] keeps the number of stamps and their
    speakers, and in its output no stamp ends after the next one starts:
    an overlap of two consecutive stamps is split at its midpoint. *)
Theorem get_contiguous_stamps_no_overlap :
  forall stamps : list stamp,
    length (get_contiguous_stamps stamps) = length stamps
    /\ map st_speaker (get_contiguous_stamps stamps) = map st_speaker stamps
    /\ Sorted no_overlap (get_contiguous_stamps stamps).
Proof.
  intros [|x tl]; simpl.
  - repeat split. constructor.
  - apply contiguous_from_spec.
Qed.

Lemma merge_from_head (rest : list stamp) :
  forall cur, exists e tl,
    merge_from cur rest = e :: tl
    /\ st_start e = st_start cur /\ st_speaker e = st_speaker cur.
Proof.
  induction rest as [|nxt tl IH]; intro cur; simpl.
  - eexists. eexists. repeat split.
  - destruct (Qeqb (st_end cur) (st_start nxt)
              && (st_speaker cur =? st_speaker nxt)) eqn:E.
    + destruct (IH (mkStamp (st_start cur) (st_end nxt) (st_speaker nxt)))
        as [e [tl' [He [Hs Hp]]]].
      exists e, tl'. simpl in Hs, Hp. apply andb_true_iff in E.
      destruct E as [_ E]. apply Z.eqb_eq in E.
      repeat split; [exact He|exact Hs|congruence].
    + eexists. eexists. repeat split.
Qed.

Lemma merge_from_spec (rest : list stamp) :
  forall cur,
    Sorted no_overlap (cur :: rest) ->
    Sorted no_overlap (merge_from cur rest)
    /\ Sorted not_mergeable (merge_from cur rest)
    /\ (length (merge_from cur rest) <= S (length rest))%nat.
Proof.
  induction rest as [|nxt tl IH]; intros cur Hs; simpl.
  - repeat split; try (repeat constructor). 
  - inversion Hs as [|? ? Hs' Hhd]; subst.
    inversion Hhd as [|? ? Hcn]; subst.
    destruct (Qeqb (st_end cur) (st_start nxt)
              && (st_speaker cur =? st_speaker nxt)) eqn:E.
    + destruct (IH (mkStamp (st_start cur) (st_end nxt) (st_speaker nxt)))
        as [H1 [H2 H3]].
      { inversion Hs' as [|? ? Hs'' Hhd']; subst.
        constructor; [exact Hs''|].
        inversion Hhd'; subst; constructor. assumption. }
      repeat split; try assumption. lia.
    + destruct (IH nxt Hs') as [H1 [H2 H3]].
      destruct (merge_from_head tl nxt) as [e [tl' [He [Hst Hsp]]]].
      repeat split.
      * constructor; [exact H1|]. rewrite He. constructor.
        unfold no_overlap in *. rewrite Hst. exact Hcn.
      * constructor; [exact H2|]. rewrite He. constructor.
        unfold not_mergeable. rewrite Hst, Hsp. intros [Q1 Q2].
        apply Qeq_bool_iff in Q1. apply Z.eqb_eq in Q2.
        unfold Qeqb in E. rewrite Q1, Q2 in E. discriminate.
      * simpl. lia.
Qed.

Lemma label_lines_ok (labels : list Z) :
  forall ranges,
    (length labels <= length ranges)%nat ->
    exists lines,
      label_lines ranges labels = Ok lines
      /\ length lines = length labels
      /\ map st_speaker lines = labels.
Proof.
  induction labels as [|c labels IH]; intros ranges Hl; simpl.
  - exists []. split; [reflexivity|]. split; reflexivity.
  - destruct ranges as [|[stt en] ranges]; simpl in Hl; [lia|].
    destruct (IH ranges) as [lines [H1 [H2 H3]]]; [lia|].
    rewrite H1. simpl. eexists. split; [reflexivity|].
    simpl. split; congruence.
Qed.

(** X30: given at least as many segment ranges as cluster labels,
    [generate_cluster_labels] returns one raw line per label, carrying the
    labels in order, and speaker turns in which no turn ends after the next
    one starts and no two consecutive turns could still be merged (same
    speaker with touching bounds); there are at most as many turns as
    lines. *)
Theorem generate_cluster_labels_turns :
  forall (segment_ranges : list (Q * Q)) (cluster_labels : list Z),
    (length cluster_labels <= length segment_ranges)%nat ->
    exists diar_hyp lines,
      generate_cluster_labels segment_ranges cluster_labels
      = Ok (diar_hyp, lines)
      /\ length lines = length cluster_labels
      /\ map st_speaker lines = cluster_labels
      /\ Sorted no_overlap diar_hyp
      /\ Sorted not_mergeable diar_hyp
      /\ (length diar_hyp <= length lines)%nat.
Proof.
  intros ranges labels Hl. unfold generate_cluster_labels.
  destruct (label_lines_ok labels ranges Hl) as [lines [H1 [H2 H3]]].
  rewrite H1. simpl. eexists. eexists. split; [reflexivity|].
  split; [exact H2|]. split; [exact H3|].
  destruct (get_contiguous_stamps_spec_aux lines) as [C1 C3].
  destruct (get_contiguous_stamps lines) as [|x tl] eqn:E; simpl.
  - repeat split; try constructor. lia.
  - destruct (merge_from_spec tl x C3) as [M1 [M2 M3]].
    repeat split; try assumption. simpl in C1. lia.
Qed.

Lemma generate_cluster_labels_turns_witness :
  let segment_ranges := [(0, 1#2); (1#4, 3#4); (5#8, 1)]%Q in
  let cluster_labels := [1; 1; 0] in
  (length cluster_labels <= length segment_ranges)%nat
  /\ exists diar_hyp lines,
      generate_cluster_labels segment_ranges cluster_labels
      = Ok (diar_hyp, lines)
      /\ length lines = length cluster_labels
      /\ map st_speaker lines = cluster_labels
      /\ Sorted no_overlap diar_hyp
      /\ Sorted not_mergeable diar_hyp
      /\ (length diar_hyp <= length lines)%nat.
Proof.
  cbv zeta. split.
  - simpl. lia.
  - apply (generate_cluster_labels_turns
             [(0, 1#2); (1#4, 3#4); (5#8, 1)]%Q [1; 1; 0]).
    simpl. lia.
Defined.

End SpeakerTurns.
